(** * yay: the upgrade list, its display numbering and the selection parser

    A shallow embedding of [upgrade.go].  Go's [int] and [rune] are [Z],
    slices are lists, [stringSet] (a [map[string]struct{}]) is a [gset string],
    and an [error] result is an [option] holding the message.  Functions of
    Go's standard library and of the packages [go-alpm] and [gopkgbuild] are
    taken through small interfaces (type classes), with plain instances that
    compute. *)

From Stdlib Require Import ZArith List Ascii String Lia Permutation.
From stdpp Require Import base option list gmap sets strings.

Local Open Scope Z_scope.

(** ** Data model *)

(** [type upgrade struct { Name, Repository, LocalVersion, RemoteVersion string }] *)
Record upgrade := Upgrade {
  Name : string;
  Repository : string;
  LocalVersion : string;
  RemoteVersion : string
}.

(** [type upSlice []upgrade] *)
Abbreviation upSlice := (list upgrade).

(** Go's [error]: [None] is [nil]. *)
Abbreviation error := (option string).

(** The part of [alpm.Package] the file reads: [Name()], [Version()] and
    [ShouldIgnore()]. *)
Record Package := {
  pkgName : string;
  pkgVersion : string;
  pkgShouldIgnore : bool
}.

(** [pkgb.CompleteVersion]: the three components of a parsed version. *)
Record CompleteVersion := {
  Version : string;
  Epoch : Z;
  Pkgrel : string
}.

(** ** Interfaces of the collaborators *)

(** [[]rune(s)] and [unicode.ToLower]. *)
Class Unicode := {
  runes : string -> list Z;
  ToLower : Z -> Z
}.

(** [pkgb.NewCompleteVersion]: [None] when it returns an error. *)
Class VersionParser := {
  NewCompleteVersion : string -> option CompleteVersion
}.

(** The colour helpers [red], [green] and [bold] of the printing code. *)
Class Colours := {
  red : string -> string;
  green : string -> string;
  bold : string -> string
}.

(** ** [upSlice.Len] and [upSlice.Less] *)

Definition upSlice_Len (u : upSlice) : Z := Z.of_nat (length u).

Section Ordering.
Context `{Unicode}.

(** The loop [for idx := 0; idx < max; idx++] of [Less]; [todo] counts the
    iterations that remain, [max - idx]. *)
Fixpoint lessLoop (iRunes jRunes : list Z) (idx todo : nat) : bool :=
  match todo with
  | O => false
  | S todo' =>
      let ir := nth idx iRunes 0 in
      let jr := nth idx jRunes 0 in
      let lir := ToLower ir in
      let ljr := ToLower jr in
      if negb (lir =? ljr) then ljr <? lir
      else if negb (ir =? jr) then jr <? ir
      else lessLoop iRunes jRunes (S idx) todo'
  end.

(** [Less] on two repository names. *)
Definition lessRepository (ri rj : string) : bool :=
  let iRunes := runes ri in
  let jRunes := runes rj in
  let max := length iRunes in
  let max := if (length jRunes <? max)%nat then length jRunes else max in
  lessLoop iRunes jRunes 0 max.

(** [func (u upSlice) Less(i, j int) bool]; [None] is the index panic. *)
Definition upSlice_Less (u : upSlice) (i j : nat) : option bool :=
  ui ← u !! i;
  uj ← u !! j;
  Some (lessRepository (Repository ui) (Repository uj)).
End Ordering.

(** ** [getVersionDiff] *)

Definition invalidVersion : string := "Invalid Version".

Section VersionDiff.
Context `{VersionParser} `{Colours}.

Definition getVersionDiff (oldVersion newversion : string) : string * string :=
  let errOld := NewCompleteVersion oldVersion in
  let errNew := NewCompleteVersion newversion in
  let left := EmptyString in
  let right := EmptyString in
  let left := if errOld is None then red invalidVersion else left in
  let right := if errNew is None then red invalidVersion else right in
  match errOld, errNew with
  | Some old, Some new =>
      if String.eqb (Version old) (Version new)
      then (Version old +:+ "-" +:+ red (Pkgrel old),
            Version new +:+ "-" +:+ green (Pkgrel new))
      else (red (Version old) +:+ "-" +:+ Pkgrel old,
            bold (green (Version new)) +:+ "-" +:+ Pkgrel new)
  | _, _ => (left, right)
  end.
End VersionDiff.

(** ** [upSlice.Print] *)

(** One line written by [Print]: the values handed to the formatting calls.
    [lineNumber] is the number shown in front, [lineWidth] the padding [w]. *)
Record printedLine := {
  lineNumber : Z;
  lineRepository : string;
  lineName : string;
  lineWidth : Z;
  lineLeft : string;
  lineRight : string
}.

Definition strlen (s : string) : Z := Z.of_nat (String.length s).

Section Printing.
Context `{VersionParser} `{Colours}.

(** The body of [for k, i := range u] in [Print]. *)
Definition printLine (u : upSlice) (start : Z) (k : nat) (i : upgrade) : printedLine :=
  let diff := getVersionDiff (LocalVersion i) (RemoteVersion i) in
  {| lineNumber := upSlice_Len u + start - Z.of_nat k - 1;
     lineRepository := Repository i;
     lineName := Name i;
     lineWidth := 70 - strlen (Repository i) - strlen (Name i) + strlen (fst diff);
     lineLeft := fst diff;
     lineRight := snd diff |}.

Definition upSlice_Print (u : upSlice) (start : Z) : list printedLine :=
  imap (printLine u start) u.
End Printing.

(** ** [upList]: the two fetch goroutines and the polling loop *)

(** Where a fetch goroutine stands: still in its fetch, blocked in
    [errC <- err], between its two sends, blocked in the send of its list, or
    returned. *)
Inductive sender := AtFetch | AtErrSend | Between | AtListSend | Returned.

Inductive source := Repo | Aur.

(** The variables of [upList] after [filterPackages] succeeded.  [err] is the
    named result: the [err] of each goroutine and the one received in the
    [select] are variables of their own, declared with [:=]. *)
Record aggregator := {
  repoG : sender;
  aurG : sender;
  repoUp : upSlice;
  aurUp : upSlice;
  err : error;
  counter : Z;
  logged : list string;
  left_loop : bool
}.

(** What happens next: a goroutine moves on by itself, or the [select] of the
    loop takes one of its cases. *)
Inductive move :=
  | FetchReturns (g : source)
  | ReachesListSend (g : source)
  | RecvErr (g : source)
  | RecvList (g : source)
  | Default.

Definition blocked_in_send (g : sender) : bool :=
  match g with AtErrSend | AtListSend => true | _ => false end.

Section Aggregator.
(** The results of [upRepo(local)] and of [upAUR(remote, remoteNames, dt)]. *)
Variable repoFetch : upSlice * error.
Variable aurFetch : upSlice * error.

Definition goroutine (s : aggregator) (g : source) : sender :=
  match g with Repo => repoG s | Aur => aurG s end.

Definition set_goroutine (s : aggregator) (g : source) (p : sender) : aggregator :=
  match g with
  | Repo => {| repoG := p; aurG := aurG s; repoUp := repoUp s; aurUp := aurUp s;
               err := err s; counter := counter s; logged := logged s;
               left_loop := left_loop s |}
  | Aur => {| repoG := repoG s; aurG := p; repoUp := repoUp s; aurUp := aurUp s;
              err := err s; counter := counter s; logged := logged s;
              left_loop := left_loop s |}
  end.

Definition fetched (g : source) : upSlice * error :=
  match g with Repo => repoFetch | Aur => aurFetch end.

(** [case err := <-errC]: the received error is printed when it is not nil. *)
Definition recv_err (s : aggregator) (g : source) : aggregator :=
  let s := set_goroutine s g Between in
  {| repoG := repoG s; aurG := aurG s; repoUp := repoUp s; aurUp := aurUp s;
     err := err s; counter := counter s;
     logged := match snd (fetched g) with
               | Some e => logged s ++ [e]
               | None => logged s
               end;
     left_loop := left_loop s |}.

(** [case repoUp = <-repoC: i++] and [case aurUp = <-aurC: i++]. *)
Definition recv_list (s : aggregator) (g : source) : aggregator :=
  let s := set_goroutine s g Returned in
  {| repoG := repoG s; aurG := aurG s;
     repoUp := match g with Repo => fst repoFetch | Aur => repoUp s end;
     aurUp := match g with Aur => fst aurFetch | Repo => aurUp s end;
     err := err s; counter := counter s + 1; logged := logged s;
     left_loop := left_loop s |}.

(** [default:] leaves the loop when [i == 2], and polls again otherwise. *)
Definition take_default (s : aggregator) : aggregator :=
  {| repoG := repoG s; aurG := aurG s; repoUp := repoUp s; aurUp := aurUp s;
     err := err s; counter := counter s; logged := logged s;
     left_loop := counter s =? 2 |}.

(** One move; [None] when the move is not possible in [s].  A receive needs
    its sender blocked in that send, and [default] runs only when no sender
    is blocked in a send. *)
Definition upList_step (m : move) (s : aggregator) : option aggregator :=
  if left_loop s then None else
  match m with
  | FetchReturns g =>
      if goroutine s g is AtFetch then Some (set_goroutine s g AtErrSend) else None
  | ReachesListSend g =>
      if goroutine s g is Between then Some (set_goroutine s g AtListSend) else None
  | RecvErr g =>
      if goroutine s g is AtErrSend then Some (recv_err s g) else None
  | RecvList g =>
      if goroutine s g is AtListSend then Some (recv_list s g) else None
  | Default =>
      if blocked_in_send (repoG s) || blocked_in_send (aurG s) then None
      else Some (take_default s)
  end.

Fixpoint upList_run (ms : list move) (s : aggregator) : option aggregator :=
  match ms with
  | [] => Some s
  | m :: ms' => s' ← upList_step m s; upList_run ms' s'
  end.

(** The state when the loop is entered. *)
Definition upList_start : aggregator :=
  {| repoG := AtFetch; aurG := AtFetch; repoUp := []; aurUp := [];
     err := None; counter := 0; logged := []; left_loop := false |}.

(** [upList]: [filtered] is the error of [filterPackages], [ms] the moves
    made.  The result is [(aurUp, repoUp, err)], and [None] when [ms] does
    not lead to the [return]. *)
Definition upList (filtered : error) (ms : list move) : option (upSlice * upSlice * error) :=
  match filtered with
  | Some e => Some ([], [], Some e)
  | None =>
      s ← upList_run ms upList_start;
      if left_loop s then Some (aurUp s, repoUp s, err s) else None
  end.

(** The moves of a run in which the repo goroutine goes first. *)
Definition repo_first : list move :=
  [FetchReturns Repo; RecvErr Repo; ReachesListSend Repo; RecvList Repo;
   FetchReturns Aur; RecvErr Aur; ReachesListSend Aur; RecvList Aur; Default].

(** A goroutine that is past its [errC <- err]. *)
Definition err_sent (g : sender) : bool :=
  match g with Between | AtListSend | Returned => true | _ => false end.

Definition returned (g : sender) : Z :=
  match g with Returned => 1 | _ => 0 end.

(** What holds of the variables of [upList] all along a run. *)
Definition steady (s : aggregator) : Prop :=
  err s = None
  ∧ counter s = returned (repoG s) + returned (aurG s)
  ∧ (repoG s = Returned → repoUp s = fst repoFetch)
  ∧ (aurG s = Returned → aurUp s = fst aurFetch)
  ∧ (left_loop s = true → counter s = 2)
  ∧ (∀ e, e ∈ logged s ↔
          (err_sent (repoG s) = true ∧ snd repoFetch = Some e)
          ∨ (err_sent (aurG s) = true ∧ snd aurFetch = Some e)).
End Aggregator.

(** The moves that take a goroutine from where it stands to its return. *)
Definition finish (g : source) (p : sender) : list move :=
  match p with
  | AtFetch => [FetchReturns g; RecvErr g; ReachesListSend g; RecvList g]
  | AtErrSend => [RecvErr g; ReachesListSend g; RecvList g]
  | Between => [ReachesListSend g; RecvList g]
  | AtListSend => [RecvList g]
  | Returned => []
  end.

(** ** [upDevel] *)

(** An entry of [savedInfo]; [needsUpdate] is the outcome of [e.needsUpdate()]. *)
Record shaInfos := { needsUpdate : bool }.

(** What [upDevel] does, in order: a warning printed for a package and its
    version, a record sent on [packageC], a call of [removeVCSPackage], and
    the final [done <- true]. *)
Inductive develEffect :=
  | PrintWarning (name version : string)
  | SendUpgrade (u : upgrade)
  | RemoveVCSPackage (names : list string)
  | SendDone.

(** The loop [for _, r := range remote] that sets [found] and [pkg]: the last
    package named [vcsName], [None] when [found] stays false. *)
Definition findRemote (remote : list Package) (vcsName : string) : option Package :=
  foldl (fun pkg r => if String.eqb (pkgName r) vcsName then Some r else pkg) None remote.

(** The body of [for vcsName, e := range savedInfo]. *)
Definition upDevel_entry (remote : list Package) (vcsName : string) (e : shaInfos)
    : list develEffect :=
  if needsUpdate e then
    match findRemote remote vcsName with
    | Some pkg =>
        if pkgShouldIgnore pkg
        then [PrintWarning (pkgName pkg) (pkgVersion pkg)]
        else [SendUpgrade (Upgrade (pkgName pkg) "devel" (pkgVersion pkg) "latest-commit")]
    | None => [RemoveVCSPackage [vcsName]]
    end
  else [].

(** [savedInfo] is given as the sequence of entries in the order the [range]
    over the map visits them. *)
Definition upDevel (remote : list Package) (savedInfo : list (string * shaInfos))
    : list develEffect :=
  flat_map (fun ve => upDevel_entry remote (fst ve) (snd ve)) savedInfo ++ [SendDone].

(** ** [upAUR]: the receiving loop *)

(** What the [select] of [upAUR] receives: a record on [packageC], or a value
    on [done]. *)
Inductive aurEvent :=
  | OnPackageC (pkg : upgrade)
  | OnDone.

(** [for _, w := range toUpgrade { if w.Name == pkg.Name { continue } }]:
    [continue] goes to the next [w], and so does the end of the body. *)
Fixpoint scanNames (ws : upSlice) (pkg : upgrade) (toUpgrade : upSlice) : upSlice :=
  match ws with
  | [] => toUpgrade
  | w :: ws' =>
      if String.eqb (Name w) (Name pkg)
      then scanNames ws' pkg toUpgrade
      else scanNames ws' pkg toUpgrade
  end.

(** [case pkg := <-packageC]. *)
Definition recvPackage (toUpgrade : upSlice) (pkg : upgrade) : upSlice :=
  let toUpgrade := scanNames toUpgrade pkg toUpgrade in
  toUpgrade ++ [pkg].

(** The [for { select { ... } }] of [upAUR]; [None] when the events end before
    the [return]. *)
Fixpoint upAUR_loop (events : list aurEvent) (routines routineDone : Z)
    (toUpgrade : upSlice) : option (upSlice * error) :=
  match events with
  | [] => None
  | OnPackageC pkg :: events' =>
      upAUR_loop events' routines routineDone (recvPackage toUpgrade pkg)
  | OnDone :: events' =>
      let routineDone := routineDone + 1 in
      if routineDone =? routines then Some (toUpgrade, None)
      else upAUR_loop events' routines routineDone toUpgrade
  end.

(** [upAUR]: [Devel] is [config.Devel], [events] what the goroutines send. *)
Definition upAUR (Devel : bool) (events : list aurEvent) : option (upSlice * error) :=
  let routines := 0 in
  let routineDone := 0 in
  let routines := if Devel then routines + 1 else routines in
  let routines := routines + 1 in
  if routineDone =? routines then Some ([], None)
  else upAUR_loop events routines routineDone [].

(** The records on [packageC] among the events. *)
Definition received (events : list aurEvent) : upSlice :=
  omap (λ ev, match ev with OnPackageC pkg => Some pkg | OnDone => None end) events.

(** ** [containsInt] and [removeIntListFromList] *)

Fixpoint containsInt (s : list Z) (e : Z) : bool :=
  match s with
  | [] => false
  | a :: s' => if a =? e then true else containsInt s' e
  end.

(** The loop [for i := 0; i < max; i++] of [removeIntListFromList]; each
    iteration either drops [target[i]] and lowers [max], or goes to [i+1], so
    [max - i] iterations at most remain, which [todo] bounds. *)
Fixpoint removeLoop (todo : nat) (src target : list Z) (max i : nat) : list Z :=
  match todo with
  | O => target
  | S todo' =>
      if (i <? max)%nat then
        match target !! i with
        | Some t =>
            if containsInt src t
            then removeLoop todo' src (take i target ++ drop (S i) target) (max - 1) i
            else removeLoop todo' src target max (S i)
        | None => target
        end
      else target
  end.

Definition removeIntListFromList (src target : list Z) : list Z :=
  let max := length target in
  removeLoop max src target max 0.

(** ** Functions of Go's standard library that the selection parser calls *)

Module Go.
(** The value of a decimal digit. *)
Definition digit (c : ascii) : option Z :=
  let n := Z.of_N (N_of_ascii c) - 48 in
  if (0 <=? n) && (n <=? 9) then Some n else None.

Fixpoint digits (s : string) (n : Z) : option Z :=
  match s with
  | EmptyString => Some n
  | String c s' => d ← digit c; digits s' (n * 10 + d)
  end.

Definition is_sign (c : ascii) : bool :=
  Ascii.eqb c "+" || Ascii.eqb c "-".

(** [strconv.Atoi] with a 64-bit [int]: an optional sign and one decimal
    digit or more; [None] for a syntax error and for a value out of range. *)
Definition Atoi (s : string) : option Z :=
  match s with
  | EmptyString => None
  | String c rest =>
      let body := if is_sign c then rest else s in
      if body is EmptyString then None else
      n ← digits body 0;
      let n := if Ascii.eqb c "-" then - n else n in
      if (- 2 ^ 63 <=? n) && (n <=? 2 ^ 63 - 1) then Some n else None
  end.

(** The white space of ASCII: space, and the characters 9 to 13. *)
Definition isSpace (c : ascii) : bool :=
  let n := Z.of_N (N_of_ascii c) in
  (n =? 32) || ((9 <=? n) && (n <=? 13)).

Definition flush (word : option string) : list string :=
  match word with Some w => [w] | None => [] end.

(** [strings.Fields] on a line whose white space is ASCII; [word] is the
    field being read. *)
Fixpoint Fields_from (s : string) (word : option string) : list string :=
  match s with
  | EmptyString => flush word
  | String c s' =>
      if isSpace c then flush word ++ Fields_from s' None
      else Fields_from s' (Some (default EmptyString word +:+ String c EmptyString))
  end.

Definition Fields (s : string) : list string := Fields_from s None.

(** [strings.Split(s, sep)] for a separator of one character: the pieces of
    [s] between the separators; [piece] is the one being read. *)
Fixpoint Split_from (sep : ascii) (s : string) (piece : string) : list string :=
  match s with
  | EmptyString => [piece]
  | String c s' =>
      if Ascii.eqb c sep then piece :: Split_from sep s' EmptyString
      else Split_from sep s' (piece +:+ String c EmptyString)
  end.

Definition Split (s : string) (sep : ascii) : list string :=
  Split_from sep s EmptyString.
End Go.

(** ** The range helpers *)

(** Modelled from the spec: [BuildIntRange] is not in [upgrade.go].  The
    inclusive range between its two arguments, ascending, whichever of the
    two is the larger ("both directions must be supported"). *)
Definition BuildIntRange (rangeStart rangeEnd : Z) : list Z :=
  let lo := Z.min rangeStart rangeEnd in
  let hi := Z.max rangeStart rangeEnd in
  seqZ lo (hi - lo + 1).

(** Modelled from the spec: [BuildRange] is not in [upgrade.go].  A token
    "A-B" of two integers gives the inclusive range between them; anything
    else is an error, [None]. *)
Definition BuildRange (input : string) : option (list Z) :=
  match Go.Split input "-" with
  | [a; b] =>
      rangeStart ← Go.Atoi a;
      rangeEnd ← Go.Atoi b;
      Some (BuildIntRange rangeStart rangeEnd)
  | _ => None
  end.

(** ** [upgradePkgs] *)

(** The four index lists that the token loop fills. *)
Record selection := {
  repoNums : list Z;
  aurNums : list Z;
  excludeRepo : list Z;
  excludeAur : list Z
}.

Definition no_selection : selection :=
  {| repoNums := []; aurNums := []; excludeRepo := []; excludeAur := [] |}.

Section Selection.
(** [len(aurUp)] and [len(repoUp)]. *)
Variable lenAur lenRepo : Z.

(** The body of [for _, target := range numbers]. *)
Definition addTarget (negate : bool) (sel : selection) (target : Z) : selection :=
  if (target >? lenAur + lenRepo) || (target <=? 0) then sel
  else if target <=? lenAur then
    let target := lenAur - target in
    if negate
    then {| repoNums := repoNums sel; aurNums := aurNums sel;
            excludeRepo := excludeRepo sel; excludeAur := excludeAur sel ++ [target] |}
    else {| repoNums := repoNums sel; aurNums := aurNums sel ++ [target];
            excludeRepo := excludeRepo sel; excludeAur := excludeAur sel |}
  else
    let target := lenAur + lenRepo - target in
    if negate
    then {| repoNums := repoNums sel; aurNums := aurNums sel;
            excludeRepo := excludeRepo sel ++ [target]; excludeAur := excludeAur sel |}
    else {| repoNums := repoNums sel ++ [target]; aurNums := aurNums sel;
            excludeRepo := excludeRepo sel; excludeAur := excludeAur sel |}.

(** [negate := numS[0] == '^'] and the token without its caret.  A token
    comes from [strings.Fields] and is not empty. *)
Definition negated (numS : string) : bool :=
  match numS with
  | String c _ => Ascii.eqb c "^"
  | EmptyString => false
  end.

Definition uncaret (numS : string) : string :=
  match numS with
  | String c rest => if Ascii.eqb c "^" then rest else numS
  | EmptyString => numS
  end.

(** [numbers]: from [strconv.Atoi], else from [BuildRange]; [None] is the
    [continue] taken when both fail. *)
Definition tokenNumbers (numS : string) : option (list Z) :=
  match Go.Atoi numS with
  | Some num => Some [num]
  | None => BuildRange numS
  end.

(** The body of [for _, numS := range result]. *)
Definition parseToken (sel : selection) (numS : string) : selection :=
  let negate := negated numS in
  let numS := uncaret numS in
  match tokenNumbers numS with
  | None => sel
  | Some numbers => foldl (addTarget negate) sel numbers
  end.

Definition parseTokens (result : list string) (sel : selection) : selection :=
  foldl parseToken sel result.

(** What follows the token loop: the index lists [(aurNums, repoNums)] that
    the final loops read. *)
Definition resolveSelection (sel : selection) : list Z * list Z :=
  let fill :=
    (length (repoNums sel) =? 0)%nat && (length (aurNums sel) =? 0)%nat &&
    ((0 <? length (excludeRepo sel))%nat || (0 <? length (excludeAur sel))%nat) in
  let repoNums' :=
    if fill && (lenRepo >? 0) then BuildIntRange 0 (lenRepo - 1) else repoNums sel in
  let aurNums' :=
    if fill && (lenAur >? 0) then BuildIntRange 0 (lenAur - 1) else aurNums sel in
  (removeIntListFromList (excludeAur sel) aurNums',
   removeIntListFromList (excludeRepo sel) repoNums').
End Selection.

(** [for _, j := range nums { if j == i { continue outer } }]: whether the
    index [i] is skipped. *)
Fixpoint skipped (nums : list Z) (i : Z) : bool :=
  match nums with
  | [] => false
  | j :: nums' => if j =? i then true else skipped nums' i
  end.

(** The loops [repoloop] and [aurloop]: the names of the entries whose index
    is not in [nums]. *)
Definition namesToUpgrade (up : upSlice) (nums : list Z) : gset string :=
  if (length up =? 0)%nat then ∅ else
  foldl (fun (names : gset string) ik =>
           if skipped nums (Z.of_nat (fst ik)) then names
           else names ∪ {[ Name (snd ik) ]})
        ∅ (imap pair up).

(** [sort.Sort] on an [upSlice]. *)
Class Sorting := {
  sort_Sort : upSlice -> upSlice
}.

(** What [upgradePkgs] returns, [(repoNames, aurNames, err)], and the lines
    its two calls of [Print] wrote. *)
Record upgradeResult := {
  repoNames : gset string;
  aurNames : gset string;
  resultErr : error;
  shown : list printedLine
}.

Section UpgradePkgs.
Context `{VersionParser} `{Colours} `{Sorting}.

(** [listed] is what [upList(dt)] returned, [(aurUp, repoUp, err)];
    [NoConfirm] is [config.NoConfirm]; [readLine] is what
    [reader.ReadLine()] returns, [(numberBuf, overflow, err)]. *)
Definition upgradePkgs (listed : upSlice * upSlice * error) (NoConfirm : bool)
    (readLine : string * bool * error) : upgradeResult :=
  let '(aurList, repoList, err) := listed in
  let lenAur := upSlice_Len aurList in
  let lenRepo := upSlice_Len repoList in
  if err is Some _ then
    {| repoNames := ∅; aurNames := ∅; resultErr := err; shown := [] |}
  else if lenAur + lenRepo =? 0 then
    {| repoNames := ∅; aurNames := ∅; resultErr := err; shown := [] |}
  else
    let repoList := sort_Sort repoList in
    let lines := upSlice_Print repoList (lenAur + 1) ++ upSlice_Print aurList 1 in
    if NoConfirm then
      {| repoNames := namesToUpgrade repoList [];
         aurNames := namesToUpgrade aurList [];
         resultErr := err; shown := lines |}
    else
      let '(numberBuf, overflow, errRead) := readLine in
      if bool_decide (errRead ≠ None) || overflow then
        {| repoNames := ∅; aurNames := ∅; resultErr := errRead; shown := lines |}
      else
        let result := Go.Fields numberBuf in
        let sel := parseTokens lenAur lenRepo result no_selection in
        let nums := resolveSelection lenAur lenRepo sel in
        {| repoNames := namesToUpgrade repoList (snd nums);
           aurNames := namesToUpgrade aurList (fst nums);
           resultErr := err; shown := lines |}.
End UpgradePkgs.

(** ** Instances that compute *)

(** Runes and lower case for strings of ASCII: a rune is the code of its
    byte, and [ToLower] moves [A]..[Z] to [a]..[z]. *)
Definition asciiRunes (s : string) : list Z :=
  map (fun c => Z.of_N (N_of_ascii c)) (list_ascii_of_string s).

Definition asciiToLower (r : Z) : Z :=
  if (65 <=? r) && (r <=? 90) then r + 32 else r.

#[export] Instance asciiUnicode : Unicode :=
  {| runes := asciiRunes; ToLower := asciiToLower |}.

(** Colours switched off: each helper returns its argument. *)
Definition plainColours : Colours :=
  {| red := id; green := id; bold := id |}.

(** Colours switched on, each marked by a tag in front and a reset behind. *)
Definition taggedColours : Colours :=
  {| red := fun s => "<red>" +:+ s +:+ "<reset>";
     green := fun s => "<green>" +:+ s +:+ "<reset>";
     bold := fun s => "<bold>" +:+ s +:+ "<reset>" |}.

(** A version parser for the grammar [epoch:]version[-release]: at most one
    colon, a numeric epoch in front of it, at most one dash, and a version
    that is not empty. *)
Definition splitVersion (s : string) : option CompleteVersion :=
  match Go.Split s ":" with
  | [body] =>
      match Go.Split body "-" with
      | [v] => if v is EmptyString then None
               else Some {| Version := v; Epoch := 0; Pkgrel := EmptyString |}
      | [v; rel] => if v is EmptyString then None
                    else Some {| Version := v; Epoch := 0; Pkgrel := rel |}
      | _ => None
      end
  | [ep; body] =>
      epoch ← Go.Atoi ep;
      match Go.Split body "-" with
      | [v] => if v is EmptyString then None
               else Some {| Version := v; Epoch := epoch; Pkgrel := EmptyString |}
      | [v; rel] => if v is EmptyString then None
                    else Some {| Version := v; Epoch := epoch; Pkgrel := rel |}
      | _ => None
      end
  | _ => None
  end.

Definition splitParser : VersionParser :=
  {| NewCompleteVersion := splitVersion |}.

(** Insertion sort as [sort.Sort] runs it on a short slice: each element
    moves towards the front while it is [Less] than the one before it.
    [before] holds the sorted part, last element first. *)
Fixpoint moveForward `{Unicode} (x : upgrade) (before : upSlice) : upSlice :=
  match before with
  | [] => [x]
  | y :: before' =>
      if lessRepository (Repository x) (Repository y)
      then y :: moveForward x before'
      else x :: y :: before'
  end.

Definition insertionSort `{Unicode} (u : upSlice) : upSlice :=
  rev (foldl (fun before x => moveForward x before) [] u).

Definition insertionSorting : Sorting :=
  {| sort_Sort := insertionSort |}.

(** ** Reading the display numbers back *)

(** The four appends of [addTarget]: [idx] goes to the include list of the
    source [g], or to its exclude list when [negate] is set. *)
Definition appendIndex (g : source) (negate : bool) (sel : selection) (idx : Z) : selection :=
  match g, negate with
  | Aur, true =>
      {| repoNums := repoNums sel; aurNums := aurNums sel;
         excludeRepo := excludeRepo sel; excludeAur := excludeAur sel ++ [idx] |}
  | Aur, false =>
      {| repoNums := repoNums sel; aurNums := aurNums sel ++ [idx];
         excludeRepo := excludeRepo sel; excludeAur := excludeAur sel |}
  | Repo, true =>
      {| repoNums := repoNums sel; aurNums := aurNums sel;
         excludeRepo := excludeRepo sel ++ [idx]; excludeAur := excludeAur sel |}
  | Repo, false =>
      {| repoNums := repoNums sel ++ [idx]; aurNums := aurNums sel;
         excludeRepo := excludeRepo sel; excludeAur := excludeAur sel |}
  end.

(** The slice of a source, and the lines [upgradePkgs] prints for it:
    [repoUp.Print(len(aurUp) + 1)] and [aurUp.Print(1)]. *)
Definition sliceOf (aurList repoList : upSlice) (g : source) : upSlice :=
  match g with Aur => aurList | Repo => repoList end.

Definition linesOf `{VersionParser} `{Colours} (aurList repoList : upSlice) (g : source)
    : list printedLine :=
  match g with
  | Aur => upSlice_Print aurList 1
  | Repo => upSlice_Print repoList (upSlice_Len aurList + 1)
  end.

(** A token that the loop passes over: neither an integer nor a range, or an
    integer outside [1, lenAur + lenRepo]. *)
Definition passed_over (lenAur lenRepo : Z) (numS : string) : Prop :=
  (Go.Atoi (uncaret numS) = None ∧ BuildRange (uncaret numS) = None)
  ∨ (∃ n, Go.Atoi (uncaret numS) = Some n ∧ (n < 1 ∨ lenAur + lenRepo < n)).

(** ** The scenario of two packages *)

(** [A] is installed from the repository [core], [B] is foreign; each has an
    update. *)
Definition packageA : upgrade := Upgrade "A" "core" "1.0-1" "1.0-2".
Definition packageB : upgrade := Upgrade "B" "aur" "2.0-1" "2.1-1".

(** [upgradePkgs] on the foreign list [B] and the local list [A], with the
    line [numberBuf] typed at the prompt. *)
Definition scenario (numberBuf : string) : upgradeResult :=
  @upgradePkgs splitParser plainColours insertionSorting
    ([packageB], [packageA], None) false (numberBuf, false, None).

(** ** The displays of a parsed version *)

(** The two displays that [getVersionDiff] builds for an old version from its
    components, and the two it builds for a new one. *)
Definition normal_left `{Colours} (old : CompleteVersion) (display : string) : Prop :=
  display = Version old +:+ "-" +:+ red (Pkgrel old)
  ∨ display = red (Version old) +:+ "-" +:+ Pkgrel old.

Definition normal_right `{Colours} (new : CompleteVersion) (display : string) : Prop :=
  display = Version new +:+ "-" +:+ green (Pkgrel new)
  ∨ display = bold (green (Version new)) +:+ "-" +:+ Pkgrel new.

(** ** The order of [Less] in words *)

(** At the first index where the runes of [iRunes] and [jRunes] differ,
    within the length of the shorter, the rune of [iRunes] is the larger one:
    by its lower case, or, when the lower cases are equal, by the rune
    itself. *)
Definition descends `{Unicode} (iRunes jRunes : list Z) : Prop :=
  ∃ k : nat,
    (k < length iRunes)%nat ∧ (k < length jRunes)%nat
    ∧ take k iRunes = take k jRunes
    ∧ (ToLower (nth k jRunes 0) < ToLower (nth k iRunes 0)
       ∨ ToLower (nth k jRunes 0) = ToLower (nth k iRunes 0)
         ∧ nth k jRunes 0 < nth k iRunes 0).

(** ** [upSlice.Swap] *)

(** [u[i], u[j] = u[j], u[i]]: both elements are read, then [u[i]] and
    [u[j]] are written in that order; [None] is the index panic. *)
Definition upSlice_Swap (u : upSlice) (i j : nat) : option upSlice :=
  ui ← u !! i;
  uj ← u !! j;
  Some (<[j := ui]> (<[i := uj]> u)).

(** ** [upRepo] *)

(** The package that [pkg.NewVersion(dbList)] returns: its [Version()] and
    its [DB().Name()]. *)
Record SyncPackage := {
  syncVersion : string;
  syncDBName : string
}.

(** What the file asks of [go-alpm] beyond the fields of a package:
    [pkg.NewVersion(dbList)], with [None] for [nil], [pkg.BuildDate().Unix()]
    and [alpm.VerCmp]. *)
Class Alpm := {
  DbList : Type;
  NewVersion : Package -> DbList -> option SyncPackage;
  BuildDate : Package -> Z;
  VerCmp : string -> string -> Z
}.

(** A warning of [upRepo]: the name, the installed version and the new one. *)
Record repoWarning := {
  warnedName : string;
  warnedVersion : string;
  warnedNewVersion : string
}.

Section LocalFetch.
Context `{Alpm}.

(** The body of [for _, pkg := range local]; the state is [slice] and the
    warnings printed so far. *)
Definition upRepo_step (dbList : DbList) (st : upSlice * list repoWarning) (pkg : Package)
    : upSlice * list repoWarning :=
  match NewVersion pkg dbList with
  | Some newPkg =>
      if pkgShouldIgnore pkg
      then (fst st, snd st ++ [{| warnedName := pkgName pkg;
                                  warnedVersion := pkgVersion pkg;
                                  warnedNewVersion := syncVersion newPkg |}])
      else (fst st ++ [Upgrade (pkgName pkg) (syncDBName newPkg) (pkgVersion pkg)
                               (syncVersion newPkg)], snd st)
  | None => st
  end.

(** [upRepo]: [synced] is what [alpmHandle.SyncDbs()] returns, the list of
    databases or an error.  The result is the slice, the error, and the
    warnings printed. *)
Definition upRepo (synced : DbList + string) (local : list Package)
    : upSlice * error * list repoWarning :=
  match synced with
  | inr e => ([], Some e, [])
  | inl dbList =>
      let st := foldl (upRepo_step dbList) ([], []) local in
      (fst st, None, snd st)
  end.

(** The record that [upRepo] appends for a package, and the warning it prints
    for it; [None] when it does not. *)
Definition repoUpgradeOf (dbList : DbList) (pkg : Package) : option upgrade :=
  newPkg ← NewVersion pkg dbList;
  if pkgShouldIgnore pkg then None
  else Some (Upgrade (pkgName pkg) (syncDBName newPkg) (pkgVersion pkg) (syncVersion newPkg)).

Definition repoWarningOf (dbList : DbList) (pkg : Package) : option repoWarning :=
  newPkg ← NewVersion pkg dbList;
  if pkgShouldIgnore pkg
  then Some {| warnedName := pkgName pkg; warnedVersion := pkgVersion pkg;
               warnedNewVersion := syncVersion newPkg |}
  else None.
End LocalFetch.

(** ** [upAUR]: the goroutine that compares with the AUR *)

(** The fields of an entry of [dt.Aur] that are read. *)
Record rpcPkg := {
  rpcName : string;
  rpcVersion : string;
  rpcLastModified : Z
}.

(** What the goroutine does, in order: a warning printed for a name with the
    two displays of [getVersionDiff], a record sent on [packageC], and the
    final [done <- true]. *)
Inductive aurEffect :=
  | AurWarning (name leftDisplay rightDisplay : string)
  | AurSend (u : upgrade)
  | AurDone.

Section ForeignFetch.
Context `{Alpm} `{VersionParser} `{Colours}.

(** [TimeUpdate] is [config.TimeUpdate], [Aur] is [dt.Aur]. *)
Variable TimeUpdate : bool.
Variable Aur : gmap string rpcPkg.

(** The test that makes an installed package an upgrade. *)
Definition outdated (pkg : Package) (aurPkg : rpcPkg) : bool :=
  (TimeUpdate && (rpcLastModified aurPkg >? BuildDate pkg))
  || (VerCmp (pkgVersion pkg) (rpcVersion aurPkg) <? 0).

(** The body of [for _, pkg := range remote]. *)
Definition upAUR_check_entry (pkg : Package) : list aurEffect :=
  match Aur !! pkgName pkg with
  | None => []
  | Some aurPkg =>
      if outdated pkg aurPkg then
        if pkgShouldIgnore pkg then
          let diff := getVersionDiff (pkgVersion pkg) (rpcVersion aurPkg) in
          [AurWarning (pkgName pkg) (fst diff) (snd diff)]
        else [AurSend (Upgrade (rpcName aurPkg) "aur" (pkgVersion pkg) (rpcVersion aurPkg))]
      else []
  end.

Definition upAUR_check (remote : list Package) : list aurEffect :=
  flat_map upAUR_check_entry remote ++ [AurDone].
End ForeignFetch.

(** ** What the goroutines of [upAUR] put on its channels *)

Definition develChannel (effects : list develEffect) : list aurEvent :=
  omap (λ eff, match eff with
               | SendUpgrade u => Some (OnPackageC u)
               | SendDone => Some OnDone
               | _ => None
               end) effects.

Definition checkChannel (effects : list aurEffect) : list aurEvent :=
  omap (λ eff, match eff with
               | AurSend u => Some (OnPackageC u)
               | AurDone => Some OnDone
               | AurWarning _ _ _ => None
               end) effects.

(** [merged l1 l2 l]: [l] takes the elements of [l1] and of [l2], each list
    in its order: an order in which the sends of two goroutines may arrive. *)
Inductive merged {A : Type} : list A → list A → list A → Prop :=
  | merged_nil : merged [] [] []
  | merged_left (x : A) (l1 l2 l : list A) :
      merged l1 l2 l → merged (x :: l1) l2 (x :: l)
  | merged_right (x : A) (l1 l2 l : list A) :
      merged l1 l2 l → merged l1 (x :: l2) (x :: l).

(** The number of values received on [done]. *)
Fixpoint dones (events : list aurEvent) : Z :=
  match events with
  | [] => 0
  | OnDone :: events' => 1 + dones events'
  | OnPackageC _ :: events' => dones events'
  end.

(** ** Indices within the two slices *)

Definition within (len : Z) (nums : list Z) : Prop :=
  Forall (λ i, 0 ≤ i < len) nums.

Definition selection_within (lenAur lenRepo : Z) (sel : selection) : Prop :=
  within lenRepo (repoNums sel) ∧ within lenAur (aurNums sel)
  ∧ within lenRepo (excludeRepo sel) ∧ within lenAur (excludeAur sel).

(** The names of the entries of a slice. *)
Definition namesOf (up : upSlice) : gset string :=
  list_to_set (Name <$> up).

(** The moves of a run that are not a turn of [default]. *)
Fixpoint progress_moves (ms : list move) : Z :=
  match ms with
  | [] => 0
  | Default :: ms' => progress_moves ms'
  | _ :: ms' => 1 + progress_moves ms'
  end.

(** The moves a goroutine has still to take part in before it has returned. *)
Definition moves_left (p : sender) : Z :=
  match p with
  | AtFetch => 4
  | AtErrSend => 3
  | Between => 2
  | AtListSend => 1
  | Returned => 0
  end.

(** An [alpm] in which no package has a new version, every package was built
    at time 100, and versions are compared by their lengths. *)
Definition lengthAlpm : Alpm :=
  {| DbList := unit;
     NewVersion := λ _ _, None;
     BuildDate := λ _, 100;
     VerCmp := λ a b, strlen a - strlen b |}.

(** * Properties *)

(** ** Index lists *)

Lemma containsInt_elem_of (s : list Z) (e : Z) :
  containsInt s e = true ↔ e ∈ s.
Proof.
  induction s as [|a s IH]; simpl.
  - split; [discriminate | intros Hin; inversion Hin].
  - destruct (Z.eqb_spec a e) as [->|Hne].
    + split; [intros _; left | reflexivity].
    + rewrite IH. split; [now right | ].
      intros Hin. apply elem_of_cons in Hin as [Heq|Hin]; [congruence | exact Hin].
Qed.

Lemma containsInt_false (s : list Z) (e : Z) :
  containsInt s e = false ↔ e ∉ s.
Proof.
  rewrite <- containsInt_elem_of. destruct (containsInt s e); split; congruence.
Qed.

(** The loop of [removeIntListFromList], started at [i] with [max] the length
    of [target], keeps the first [i] elements and filters the rest. *)
Lemma removeLoop_filter (todo : nat) (src target : list Z) (i : nat) :
  (i ≤ length target)%nat →
  (length target - i ≤ todo)%nat →
  removeLoop todo src target (length target) i
  = take i target ++ filter (λ x, x ∉ src) (drop i target).
Proof.
  revert target i. induction todo as [|todo IH]; intros target i Hi Htodo; simpl.
  - rewrite take_ge, drop_ge by lia. now rewrite app_nil_r.
  - destruct (Nat.ltb_spec i (length target)) as [Hlt|Hge].
    + destruct (lookup_lt_is_Some_2 target i Hlt) as [t Ht]. rewrite Ht.
      rewrite (drop_S _ _ _ Ht).
      assert (Hlen : length (take i target) = i) by (rewrite length_take; lia).
      destruct (containsInt src t) eqn:Hc.
      * apply containsInt_elem_of in Hc.
        rewrite filter_cons_False by (intros Hn; now apply Hn).
        assert (Hl' : length (take i target ++ drop (S i) target) = (length target - 1)%nat).
        { rewrite length_app, length_drop, Hlen. lia. }
        rewrite <- Hl'. rewrite IH by (rewrite ?Hl'; lia).
        rewrite take_app_length' by (symmetry; exact Hlen).
        now rewrite drop_app_length' by (symmetry; exact Hlen).
      * apply containsInt_false in Hc.
        rewrite filter_cons_True by exact Hc.
        rewrite IH by lia. rewrite (take_S_r _ _ _ Ht).
        now rewrite <- app_assoc.
    + rewrite take_ge, drop_ge by lia. now rewrite app_nil_r.
Qed.

(** [removeIntListFromList src target] is [target] without the elements of
    [src], in the order of [target]. *)
Lemma removeIntListFromList_filter (src target : list Z) :
  removeIntListFromList src target = filter (λ x, x ∉ src) target.
Proof.
  unfold removeIntListFromList.
  rewrite removeLoop_filter by lia. reflexivity.
Qed.

Lemma skipped_elem_of (nums : list Z) (i : Z) :
  skipped nums i = true ↔ i ∈ nums.
Proof.
  induction nums as [|j nums IH]; simpl.
  - split; [discriminate | intros Hin; inversion Hin].
  - destruct (Z.eqb_spec j i) as [->|Hne].
    + split; [intros _; left | reflexivity].
    + rewrite IH. split; [now right | ].
      intros Hin. apply elem_of_cons in Hin as [Heq|Hin]; [congruence | exact Hin].
Qed.

(** [BuildIntRange 0 (n - 1)] lists the indices of a slice of length [n]. *)
Lemma BuildIntRange_indices (n : Z) :
  0 < n → BuildIntRange 0 (n - 1) = seqZ 0 n.
Proof.
  intros Hn. unfold BuildIntRange.
  rewrite Z.min_l, Z.max_r by lia. f_equal. lia.
Qed.

Lemma BuildIntRange_sym (a b : Z) : BuildIntRange a b = BuildIntRange b a.
Proof. unfold BuildIntRange. now rewrite Z.min_comm, Z.max_comm. Qed.

Lemma seqZ_indices (u : upSlice) (i : Z) :
  i ∈ seqZ 0 (upSlice_Len u) ↔ 0 ≤ i ∧ is_Some (u !! Z.to_nat i).
Proof.
  unfold upSlice_Len. rewrite elem_of_seqZ, lookup_lt_is_Some. lia.
Qed.

(** The filling of an empty include list: the indices of the slice when the
    slice is not empty, and the empty list it already is otherwise. *)
Lemma fill_indices (len : Z) :
  0 ≤ len → (if len >? 0 then BuildIntRange 0 (len - 1) else []) = seqZ 0 len.
Proof.
  intros Hlen. destruct (Z.gtb_spec len 0) as [Hpos|Hzero].
  - apply BuildIntRange_indices. lia.
  - replace len with 0 by lia. reflexivity.
Qed.

(** ** The policy after the token loop *)

(** C7: after the token loop, when both include lists are empty and one of
    the exclude lists is not, each include list becomes the full index range
    of its slice; otherwise the include lists stay as selected.  In both cases
    each list's excludes are then removed from that list's includes, the two
    lists apart.  The full index range of a slice [u] holds exactly the
    indices at which [u] has an entry. *)
Theorem resolveSelection_policy (aurList repoList : upSlice) (sel : selection) :
  let lenAur := upSlice_Len aurList in
  let lenRepo := upSlice_Len repoList in
  let exclude_only :=
    bool_decide (repoNums sel = [] ∧ aurNums sel = [] ∧
                 (excludeRepo sel ≠ [] ∨ excludeAur sel ≠ [])) in
  let includeAur := if exclude_only then seqZ 0 lenAur else aurNums sel in
  let includeRepo := if exclude_only then seqZ 0 lenRepo else repoNums sel in
  resolveSelection lenAur lenRepo sel
  = (filter (λ x, x ∉ excludeAur sel) includeAur,
     filter (λ x, x ∉ excludeRepo sel) includeRepo)
  ∧ (∀ i, i ∈ seqZ 0 lenAur ↔ 0 ≤ i ∧ is_Some (aurList !! Z.to_nat i))
  ∧ (∀ i, i ∈ seqZ 0 lenRepo ↔ 0 ≤ i ∧ is_Some (repoList !! Z.to_nat i)).
Proof.
  intros lenAur lenRepo exclude_only includeAur includeRepo.
  split; [ | split; intros i; apply seqZ_indices].
  assert (HA : 0 ≤ lenAur) by (unfold lenAur, upSlice_Len; lia).
  assert (HR : 0 ≤ lenRepo) by (unfold lenRepo, upSlice_Len; lia).
  unfold resolveSelection. rewrite !removeIntListFromList_filter.
  subst includeAur includeRepo exclude_only.
  case_bool_decide as Hc.
  - destruct Hc as (Hr & Ha & Hx). rewrite Hr, Ha.
    assert (Hfill : ((0 <? length (excludeRepo sel))%nat
                     || (0 <? length (excludeAur sel))%nat) = true).
    { destruct (excludeRepo sel), (excludeAur sel); try reflexivity.
      destruct Hx as [Hx|Hx]; now contradiction Hx. }
    cbn [length Nat.eqb andb]. rewrite Hfill. cbn [andb].
    now rewrite (fill_indices lenAur HA), (fill_indices lenRepo HR).
  - assert (Hfill : ((length (repoNums sel) =? 0)%nat && (length (aurNums sel) =? 0)%nat
                     && ((0 <? length (excludeRepo sel))%nat
                         || (0 <? length (excludeAur sel))%nat)) = false).
    { destruct (repoNums sel), (aurNums sel); try reflexivity.
      destruct (excludeRepo sel), (excludeAur sel); try reflexivity;
        contradiction Hc; split_and!; try reflexivity; (now left) || (now right). }
    rewrite Hfill. reflexivity.
Qed.

(** ** Tokens that select nothing *)

Lemma addTarget_out_of_range (lenAur lenRepo : Z) (negate : bool) (sel : selection) (n : Z) :
  n < 1 ∨ lenAur + lenRepo < n → addTarget lenAur lenRepo negate sel n = sel.
Proof.
  intros Hn. unfold addTarget.
  destruct (Z.gtb_spec n (lenAur + lenRepo)); [reflexivity | ].
  destruct (Z.leb_spec n 0); [reflexivity | lia].
Qed.

Lemma parseToken_passed_over (lenAur lenRepo : Z) (sel : selection) (numS : string) :
  passed_over lenAur lenRepo numS → parseToken lenAur lenRepo sel numS = sel.
Proof.
  unfold parseToken, tokenNumbers.
  intros [(Hint & Hrange) | (n & Hint & Hn)]; rewrite Hint.
  - now rewrite Hrange.
  - simpl. now apply addTarget_out_of_range.
Qed.

(** A range all of whose numbers are out of range selects nothing either. *)
Lemma parseToken_range_outside (lenAur lenRepo : Z) (sel : selection) (numS : string)
    (numbers : list Z) :
  tokenNumbers (uncaret numS) = Some numbers →
  Forall (λ n, n < 1 ∨ lenAur + lenRepo < n) numbers →
  parseToken lenAur lenRepo sel numS = sel.
Proof.
  unfold parseToken. intros -> Hall.
  induction Hall as [|n numbers Hn _ IH]; simpl; [reflexivity | ].
  now rewrite addTarget_out_of_range.
Qed.

Lemma upgradePkgs_line_no_error `{VersionParser} `{Colours} `{Sorting}
    (aurList repoList : upSlice) (NoConfirm : bool) (numberBuf : string) :
  resultErr (upgradePkgs (aurList, repoList, None) NoConfirm (numberBuf, false, None)) = None.
Proof.
  unfold upgradePkgs.
  destruct (upSlice_Len aurList + upSlice_Len repoList =? 0); [reflexivity | ].
  destruct NoConfirm; reflexivity.
Qed.

(** C8: a token that is neither an integer nor a range, or that is an integer
    outside [1, lenAur + lenRepo], adds nothing to any of the four index
    lists; the loop goes on with the tokens that follow as if the token were
    not there, and a line that was read gives no error whatever its tokens. *)
Theorem passed_over_token_ignored `{VersionParser} `{Colours} `{Sorting}
    (aurList repoList : upSlice) (numS : string) :
  passed_over (upSlice_Len aurList) (upSlice_Len repoList) numS →
  (∀ sel, parseToken (upSlice_Len aurList) (upSlice_Len repoList) sel numS = sel)
  ∧ (∀ before after sel,
       parseTokens (upSlice_Len aurList) (upSlice_Len repoList) (before ++ numS :: after) sel
       = parseTokens (upSlice_Len aurList) (upSlice_Len repoList) (before ++ after) sel)
  ∧ (∀ NoConfirm numberBuf,
       resultErr (upgradePkgs (aurList, repoList, None) NoConfirm (numberBuf, false, None))
       = None).
Proof.
  intros Hskip. split_and!.
  - intros sel. now apply parseToken_passed_over.
  - intros before after sel. unfold parseTokens.
    rewrite !foldl_app. simpl. now rewrite parseToken_passed_over.
  - intros. apply upgradePkgs_line_no_error.
Qed.

(** With three foreign entries and two local ones, the token [99] is passed
    over between two tokens that select. *)
Lemma passed_over_token_ignored_witness :
  passed_over 3 2 "99"
  ∧ parseTokens 3 2 ["1"; "99"; "^4"] no_selection
    = parseTokens 3 2 ["1"; "^4"] no_selection.
Proof.
  assert (Hskip : passed_over 3 2 "99").
  { right. exists 99. split; [reflexivity | right; reflexivity]. }
  split; [exact Hskip | ].
  destruct (@passed_over_token_ignored splitParser plainColours insertionSorting
              (replicate 3 (Upgrade "p" "aur" "1-1" "1-2"))
              (replicate 2 (Upgrade "q" "core" "1-1" "1-2")) "99" Hskip)
    as (_ & Hrest & _).
  exact (Hrest ["1"] ["^4"] no_selection).
Defined.

(** ** Display numbers and the indices they are read back to *)

Section Numbering.
Context `{VersionParser} `{Colours}.

Lemma upSlice_Print_lookup (u : upSlice) (start : Z) (k : nat) (line : printedLine) :
  upSlice_Print u start !! k = Some line ↔
  ∃ up, u !! k = Some up ∧ line = printLine u start k up.
Proof.
  unfold upSlice_Print. rewrite list_lookup_imap.
  destruct (u !! k) as [up|]; simpl; split.
  - intros [= <-]. now exists up.
  - intros (up' & [= <-] & ->). reflexivity.
  - discriminate.
  - intros (up' & Hup & _). discriminate.
Qed.

Lemma lineNumber_printLine (u : upSlice) (start : Z) (k : nat) (up : upgrade) :
  lineNumber (printLine u start k up) = upSlice_Len u + start - Z.of_nat k - 1.
Proof. reflexivity. Qed.

Lemma lineName_printLine (u : upSlice) (start : Z) (k : nat) (up : upgrade) :
  lineName (printLine u start k up) = Name up.
Proof. reflexivity. Qed.

(** The number printed in front of entry [k] of a source is in range, and
    the token loop reads it back to that source and to [k]. *)
Lemma printed_number_read_back (aurList repoList : upSlice) (g : source) (k : nat)
    (line : printedLine) :
  linesOf aurList repoList g !! k = Some line →
  1 ≤ lineNumber line ≤ upSlice_Len aurList + upSlice_Len repoList
  ∧ ∀ negate sel,
      addTarget (upSlice_Len aurList) (upSlice_Len repoList) negate sel (lineNumber line)
      = appendIndex g negate sel (Z.of_nat k).
Proof.
  intros Hline.
  assert (Hk : (k < length (sliceOf aurList repoList g))%nat
               ∧ lineNumber line
                 = match g with
                   | Aur => upSlice_Len aurList - Z.of_nat k
                   | Repo => upSlice_Len aurList + upSlice_Len repoList - Z.of_nat k
                   end).
  { destruct g; simpl in Hline; apply upSlice_Print_lookup in Hline
      as (up & Hup & ->); rewrite lineNumber_printLine;
      (split; [now apply lookup_lt_Some in Hup | lia]). }
  destruct Hk as (Hk & ->).
  unfold upSlice_Len in *. unfold addTarget.
  destruct g; simpl in Hk; (split; [lia | intros negate sel]);
    repeat match goal with
      | |- context [Z.gtb ?a ?b] => destruct (Z.gtb_spec a b); try lia
      | |- context [Z.leb ?a ?b] => destruct (Z.leb_spec a b); try lia
      end;
    simpl; destruct negate; simpl; repeat f_equal; lia.
Qed.

Lemma appendIndex_inj (g g' : source) (k k' : nat) :
  appendIndex g false no_selection (Z.of_nat k)
  = appendIndex g' false no_selection (Z.of_nat k') →
  g = g' ∧ k = k'.
Proof.
  destruct g, g'; simpl; intros [= Hk]; split; (reflexivity || lia).
Qed.

(** Every number in range is printed in front of an entry. *)
Lemma number_is_printed (aurList repoList : upSlice) (N : Z) :
  1 ≤ N ≤ upSlice_Len aurList + upSlice_Len repoList →
  ∃ g k line, linesOf aurList repoList g !! k = Some line ∧ lineNumber line = N.
Proof.
  intros HN. unfold upSlice_Len in HN.
  set (la := Z.of_nat (length aurList)) in *.
  set (lr := Z.of_nat (length repoList)) in *.
  destruct (Z.le_gt_cases N la) as [Hle|Hgt].
  - destruct (lookup_lt_is_Some_2 aurList (Z.to_nat (la - N))) as [up Hup];
      [lia | ].
    exists Aur, (Z.to_nat (la - N)), (printLine aurList 1 (Z.to_nat (la - N)) up). split.
    + apply upSlice_Print_lookup. now exists up.
    + rewrite lineNumber_printLine. unfold upSlice_Len. lia.
  - destruct (lookup_lt_is_Some_2 repoList (Z.to_nat (la + lr - N))) as [up Hup]; [lia | ].
    exists Repo, (Z.to_nat (la + lr - N)),
           (printLine repoList (upSlice_Len aurList + 1) (Z.to_nat (la + lr - N)) up). split.
    + apply upSlice_Print_lookup. now exists up.
    + rewrite lineNumber_printLine. unfold upSlice_Len. lia.
Qed.
End Numbering.

(** C6: the numbers that [Print] writes (the local list started at
    [len(aurUp) + 1], the foreign list at [1]) and the indices that the token
    loop computes are inverse to each other: every display number [N] of
    [1 .. len(aurUp) + len(repoUp)] stands in front of exactly one entry, at
    index [k] of one source, that entry is an entry of the source's slice, and
    the loop turns [N] into index [k] of that source, for a plain token and
    for a negated one. *)
Theorem display_number_inverse `{VersionParser} `{Colours}
    (aurList repoList : upSlice) (N : Z) :
  1 ≤ N ≤ upSlice_Len aurList + upSlice_Len repoList →
  ∃ (g : source) (k : nat) (line : printedLine),
    linesOf aurList repoList g !! k = Some line
    ∧ lineNumber line = N
    ∧ (∃ up, sliceOf aurList repoList g !! k = Some up ∧ lineName line = Name up)
    ∧ (∀ negate sel,
         addTarget (upSlice_Len aurList) (upSlice_Len repoList) negate sel N
         = appendIndex g negate sel (Z.of_nat k))
    ∧ (∀ g' k' line',
         linesOf aurList repoList g' !! k' = Some line' →
         lineNumber line' = N → g' = g ∧ k' = k).
Proof.
  intros HN.
  destruct (number_is_printed aurList repoList N HN) as (g & k & line & Hline & Hnum).
  exists g, k, line.
  destruct (printed_number_read_back aurList repoList g k line Hline) as (_ & Hback).
  rewrite Hnum in Hback. split_and!; try done.
  - destruct g; simpl in Hline |- *; apply upSlice_Print_lookup in Hline
      as (up & Hup & ->); now exists up.
  - intros g' k' line' Hline' Hnum'.
    destruct (printed_number_read_back aurList repoList g' k' line' Hline') as (_ & Hback').
    rewrite Hnum' in Hback'.
    specialize (Hback false no_selection). specialize (Hback' false no_selection).
    rewrite Hback in Hback'. apply appendIndex_inj in Hback' as (-> & ->). done.
Qed.

(** With two foreign entries and one local entry, the number 3 stands in
    front of the local entry. *)
Lemma display_number_inverse_witness :
  1 ≤ 3 ≤ upSlice_Len [packageB; packageB] + upSlice_Len [packageA]
  ∧ ∃ (g : source) (k : nat) (line : printedLine),
      @linesOf splitParser plainColours [packageB; packageB] [packageA] g !! k = Some line
      ∧ lineNumber line = 3
      ∧ (∃ up, sliceOf [packageB; packageB] [packageA] g !! k = Some up
               ∧ lineName line = Name up)
      ∧ (∀ negate sel,
           addTarget (upSlice_Len [packageB; packageB]) (upSlice_Len [packageA]) negate sel 3
           = appendIndex g negate sel (Z.of_nat k))
      ∧ (∀ g' k' line',
           @linesOf splitParser plainColours [packageB; packageB] [packageA] g' !! k'
           = Some line' →
           lineNumber line' = 3 → g' = g ∧ k' = k).
Proof.
  assert (Hrange : 1 ≤ 3 ≤ upSlice_Len [packageB; packageB] + upSlice_Len [packageA])
    by (unfold upSlice_Len; simpl; lia).
  split; [exact Hrange | ].
  exact (@display_number_inverse splitParser plainColours
           [packageB; packageB] [packageA] 3 Hrange).
Defined.

(** ** The names that are kept *)

Lemma namesToUpgrade_foldl (nums : list Z) (shift : nat) (up : upSlice)
    (names : gset string) (x : string) :
  x ∈ foldl (fun (names : gset string) ik =>
               if skipped nums (Z.of_nat (fst ik)) then names
               else names ∪ {[ Name (snd ik) ]})
            names (imap (λ i u, (shift + i, u)%nat) up)
  ↔ x ∈ names ∨ ∃ i u, up !! i = Some u ∧ Name u = x ∧ Z.of_nat (shift + i) ∉ nums.
Proof.
  revert shift names. induction up as [|u0 up IH]; intros shift names; simpl.
  - split; [now left | intros [Hin | (i & u & Hu & _)]; [exact Hin | discriminate]].
  - rewrite (imap_ext _ (λ i u, (S shift + i, u)%nat))
      by (intros; unfold compose; f_equal; lia).
    rewrite IH. rewrite Nat.add_0_r.
    destruct (skipped nums (Z.of_nat shift)) eqn:Hs.
    + apply skipped_elem_of in Hs. split.
      * intros [Hin | (i & u & Hu & Hx & Hn)]; [now left | right].
        exists (S i), u. split_and!; try done. now rewrite Nat.add_succ_r.
      * intros [Hin | (i & u & Hu & Hx & Hn)]; [now left | ].
        destruct i as [|i]; simpl in Hu.
        -- rewrite Nat.add_0_r in Hn. contradiction.
        -- right. exists i, u. split_and!; try done. now rewrite Nat.add_succ_r in Hn.
    + assert (Hn0 : Z.of_nat shift ∉ nums).
      { intros Hin. apply skipped_elem_of in Hin. congruence. }
      rewrite elem_of_union, elem_of_singleton. split.
      * intros [[Hin | ->] | (i & u & Hu & Hx & Hn)].
        -- now left.
        -- right. exists 0%nat, u0. split_and!; try done. now rewrite Nat.add_0_r.
        -- right. exists (S i), u. split_and!; try done. now rewrite Nat.add_succ_r.
      * intros [Hin | (i & u & Hu & Hx & Hn)]; [now left; left | ].
        destruct i as [|i]; simpl in Hu.
        -- injection Hu as <-. left; right. now symmetry.
        -- right. exists i, u. split_and!; try done. now rewrite Nat.add_succ_r in Hn.
Qed.

(** A name is kept when it is the name of an entry whose index is not in
    [nums]. *)
Lemma elem_of_namesToUpgrade (up : upSlice) (nums : list Z) (x : string) :
  x ∈ namesToUpgrade up nums
  ↔ ∃ i u, up !! i = Some u ∧ Name u = x ∧ Z.of_nat i ∉ nums.
Proof.
  unfold namesToUpgrade. destruct up as [|u0 up].
  - simpl. split; [intros Hin; now apply not_elem_of_empty in Hin | ].
    intros (i & u & Hu & _). discriminate.
  - change (length (u0 :: up) =? 0)%nat with false. cbv iota.
    rewrite (imap_ext pair (λ i u, (0 + i, u)%nat)) by reflexivity.
    rewrite namesToUpgrade_foldl. split.
    + intros [Hin | Hex]; [now apply not_elem_of_empty in Hin | exact Hex].
    + intros Hex. now right.
Qed.

(** ** Sorting *)

Lemma moveForward_perm `{Unicode} (x : upgrade) (before : upSlice) :
  moveForward x before ≡ₚ x :: before.
Proof.
  induction before as [|y before IH]; simpl; [reflexivity | ].
  destruct (lessRepository (Repository x) (Repository y)); [ | reflexivity].
  rewrite IH. apply Permutation_swap.
Qed.

Lemma insertionSort_perm `{Unicode} (u : upSlice) : insertionSort u ≡ₚ u.
Proof.
  unfold insertionSort. rewrite <- Permutation_rev.
  assert (Hgen : ∀ before, foldl (λ before x, moveForward x before) before u
                           ≡ₚ rev u ++ before).
  { induction u as [|x u IH]; intros before; simpl; [reflexivity | ].
    rewrite IH, moveForward_perm, <- app_assoc. reflexivity. }
  rewrite Hgen, app_nil_r. symmetry. apply Permutation_rev.
Qed.

(** ** The scenario of one local and one foreign package *)

(** The line ["^1"] gives the single exclude index 0 of the foreign list, and
    the policy then fills both include lists and empties the foreign one. *)
Lemma caret_one_selection :
  resolveSelection 1 1 (parseTokens 1 1 (Go.Fields "^1") no_selection) = ([], [0]).
Proof. reflexivity. Qed.

Lemma caret_one_result `{VersionParser} `{Colours} `{Sorting} (A B : upgrade) :
  sort_Sort [A] = [A] →
  let r := upgradePkgs ([B], [A], None) false ("^1"%string, false, None) in
  repoNames r = ∅ ∧ aurNames r = {[ Name B ]} ∧ resultErr r = None.
Proof.
  intros Hsort. unfold upgradePkgs.
  change (upSlice_Len [B]) with 1. change (upSlice_Len [A]) with 1.
  change (1 + 1 =? 0) with false. cbv iota.
  change (bool_decide (@None string ≠ None) || false) with false. cbv iota.
  rewrite Hsort, caret_one_selection. cbv zeta. simpl.
  split_and!; [reflexivity | | reflexivity].
  unfold namesToUpgrade. simpl. apply (left_id_L ∅ (∪)).
Qed.

(** C1, as the code has it: with one local upgrade [A], one foreign upgrade
    [B], nothing ignored and the line ["^1"], whose number 1 stands in front
    of [B], [upgradePkgs] returns the empty set of local names and the set
    [{B}] of foreign names, and no error: the numbers typed are the packages
    not to upgrade, and the caret takes [B] out of them, so [B] alone is
    upgraded. *)
Theorem caret_one_keeps_foreign `{VersionParser} `{Colours} `{Sorting} (A B : upgrade) :
  (∀ u, sort_Sort u ≡ₚ u) →
  let r := upgradePkgs ([B], [A], None) false ("^1"%string, false, None) in
  repoNames r = ∅ ∧ aurNames r = {[ Name B ]} ∧ resultErr r = None.
Proof.
  intros Hsort. apply caret_one_result.
  apply Permutation_singleton_r, Hsort.
Qed.

Lemma caret_one_keeps_foreign_witness :
  (∀ u, @sort_Sort insertionSorting u ≡ₚ u)
  ∧ repoNames (scenario "^1") = ∅
  ∧ aurNames (scenario "^1") = {[ "B"%string ]}
  ∧ resultErr (scenario "^1") = None.
Proof.
  assert (Hsort : ∀ u, @sort_Sort insertionSorting u ≡ₚ u)
    by (intros u; apply insertionSort_perm).
  split; [exact Hsort | ].
  exact (@caret_one_keeps_foreign splitParser plainColours insertionSorting
           packageA packageB Hsort).
Defined.

(** The claim fails in the scenario: for the line ["^1"] the final sets are
    not [{A}] and the empty set. *)
Lemma caret_one_counterexample :
  ¬ (repoNames (scenario "^1") = {[ "A"%string ]} ∧ aurNames (scenario "^1") = ∅).
Proof.
  intros [Hrepo _].
  destruct (@caret_one_result splitParser plainColours insertionSorting
              packageA packageB eq_refl) as (Hempty & _).
  unfold scenario in Hrepo. rewrite Hempty in Hrepo.
  assert (Hin : "A"%string ∈ (∅ : gset string)) by (rewrite Hrepo; set_solver).
  now apply not_elem_of_empty in Hin.
Qed.

(** ** [upList]: what a run that returns has received *)

Section AggregatorFacts.
Variable repoFetch aurFetch : upSlice * error.

Lemma steady_start : steady repoFetch aurFetch upList_start.
Proof.
  unfold steady; simpl. split_and!; try done.
  intros e. split; [intros Hin; inversion Hin | intros [[? _]|[? _]]; discriminate].
Qed.

Lemma steady_step (m : move) (s s' : aggregator) :
  steady repoFetch aurFetch s →
  upList_step repoFetch aurFetch m s = Some s' →
  steady repoFetch aurFetch s'.
Proof.
  destruct s as [rg ag ru au er c lg ll]. unfold steady, upList_step; simpl.
  intros (Herr & Hc & Hr & Ha & Hl & Hlog).
  destruct ll; [discriminate | ].
  destruct m as [g|g|g|g| ]; try destruct g; simpl;
    destruct rg, ag; simpl; try discriminate; intros [= <-]; simpl in *;
    (split_and!; [done | lia || done | done || (intros; tauto) ..
                  | try (intros ->%Z.eqb_eq; reflexivity); try done | ]);
    try (intros e; rewrite (Hlog e); clear; intuition congruence);
    try (destruct (snd repoFetch) as [e0|] eqn:E0; intros e;
         rewrite ?elem_of_app, ?list_elem_of_singleton, (Hlog e); clear -E0;
         intuition congruence);
    try (destruct (snd aurFetch) as [e0|] eqn:E0; intros e;
         rewrite ?elem_of_app, ?list_elem_of_singleton, (Hlog e); clear -E0;
         intuition congruence).
Qed.

Lemma steady_run (ms : list move) (s s' : aggregator) :
  steady repoFetch aurFetch s →
  upList_run repoFetch aurFetch ms s = Some s' →
  steady repoFetch aurFetch s'.
Proof.
  revert s. induction ms as [|m ms IH]; intros s Hs; simpl.
  - now intros [= <-].
  - destruct (upList_step repoFetch aurFetch m s) as [s1|] eqn:Hstep; simpl;
      [ | discriminate].
    apply IH. now apply (steady_step m s).
Qed.

(** When the loop is left, both goroutines have returned. *)
Lemma steady_left (s : aggregator) :
  steady repoFetch aurFetch s → left_loop s = true →
  repoG s = Returned ∧ aurG s = Returned.
Proof.
  intros (_ & Hc & _ & _ & Hl & _) Hleft. specialize (Hl Hleft).
  rewrite Hl in Hc. destruct (repoG s), (aurG s); simpl in Hc; (done || lia).
Qed.

(** The run in which the repo goroutine goes first does return. *)
Lemma upList_repo_first :
  upList repoFetch aurFetch None repo_first = Some (fst aurFetch, fst repoFetch, None).
Proof. reflexivity. Qed.
End AggregatorFacts.

Section AggregatorProgress.
Variable repoFetch aurFetch : upSlice * error.

Lemma upList_run_app (ms ms' : list move) (s : aggregator) :
  upList_run repoFetch aurFetch (ms ++ ms') s
  = upList_run repoFetch aurFetch ms s ≫= upList_run repoFetch aurFetch ms'.
Proof.
  revert s. induction ms as [|m ms IH]; intros s; simpl; [reflexivity | ].
  destruct (upList_step repoFetch aurFetch m s) as [s1|]; simpl; [apply IH | reflexivity].
Qed.

(** From every state of a run the loop can still be left: no run is stuck
    short of the [return]. *)
Lemma upList_can_return (ms : list move) (s : aggregator) :
  upList_run repoFetch aurFetch ms upList_start = Some s →
  ∃ ms', upList repoFetch aurFetch None (ms ++ ms')
         = Some (fst aurFetch, fst repoFetch, None).
Proof.
  intros Hrun.
  pose proof (steady_run repoFetch aurFetch ms _ s (steady_start repoFetch aurFetch) Hrun)
    as Hs.
  destruct (left_loop s) eqn:Hleft.
  - exists []. rewrite app_nil_r. unfold upList. rewrite Hrun. simpl. rewrite Hleft.
    destruct (steady_left repoFetch aurFetch s Hs Hleft) as (Hrg & Hag).
    destruct Hs as (Herr & _ & Hr & Ha & _).
    now rewrite (Hr Hrg), (Ha Hag), Herr.
  - exists (finish Repo (repoG s) ++ finish Aur (aurG s) ++ [Default]).
    unfold upList. rewrite upList_run_app, Hrun. simpl.
    destruct Hs as (Herr & Hc & Hr & Ha & _).
    destruct s as [rg ag ru au er c lg ll]. simpl in *. subst ll er c.
    destruct rg, ag; simpl;
      rewrite ?(Hr eq_refl), ?(Ha eq_refl); reflexivity.
Qed.
End AggregatorProgress.

Lemma upList_returned_lists (repoFetch aurFetch : upSlice * error) (filtered : error)
    (ms : list move) (result : upSlice * upSlice * error) :
  upList repoFetch aurFetch filtered ms = Some result →
  (snd result ≠ None ↔ filtered ≠ None)
  ∧ (filtered = None →
     result = (fst aurFetch, fst repoFetch, None)
     ∧ ∃ s, upList_run repoFetch aurFetch ms upList_start = Some s
            ∧ left_loop s = true
            ∧ ∀ e, e ∈ logged s ↔ snd repoFetch = Some e ∨ snd aurFetch = Some e)
  ∧ (∀ e, filtered = Some e → result = ([], [], Some e)).
Proof.
  unfold upList. destruct filtered as [e0|].
  - intros [= <-]. simpl. split_and!; [done | discriminate | now intros e [= <-]].
  - destruct (upList_run repoFetch aurFetch ms upList_start) as [s|] eqn:Hrun; simpl;
      [ | discriminate].
    destruct (left_loop s) eqn:Hleft; [ | discriminate].
    intros [= <-].
    pose proof (steady_run repoFetch aurFetch ms _ s (steady_start repoFetch aurFetch) Hrun)
      as Hs.
    destruct (steady_left repoFetch aurFetch s Hs Hleft) as (Hrg & Hag).
    destruct Hs as (Herr & _ & Hr & Ha & _ & Hlog).
    rewrite (Hr Hrg), (Ha Hag), Herr. simpl. split_and!; [done | | discriminate].
    intros _. split; [reflexivity | ].
    exists s. split_and!; try done.
    intros e. rewrite (Hlog e), Hrg, Hag. simpl. tauto.
Qed.

(** C2: an error of a fetch goroutine is printed and never returned, and
    [upList] does return.  When [filterPackages] fails, [upList] returns that
    error at once.  Otherwise there is a run that returns, every run can be
    carried on to the [return] from wherever it stands, and what [upList]
    returns is then the two lists that the fetches produced and a nil error:
    the local list obtained is returned also when the foreign fetch gave an
    error.  The error of [upList] is not nil only when [filterPackages]
    failed, and what was printed are the errors of the fetches. *)
Theorem upList_partial_success (repoFetch aurFetch : upSlice * error) (filtered : error) :
  (∃ ms, upList repoFetch aurFetch filtered ms
         = Some (match filtered with
                 | Some e => ([], [], Some e)
                 | None => (fst aurFetch, fst repoFetch, None)
                 end))
  ∧ (∀ ms s, upList_run repoFetch aurFetch ms upList_start = Some s →
             ∃ ms', upList repoFetch aurFetch None (ms ++ ms')
                    = Some (fst aurFetch, fst repoFetch, None))
  ∧ (∀ ms result,
       upList repoFetch aurFetch filtered ms = Some result →
       (snd result ≠ None ↔ filtered ≠ None)
       ∧ (filtered = None →
          result = (fst aurFetch, fst repoFetch, None)
          ∧ ∃ s, upList_run repoFetch aurFetch ms upList_start = Some s
                 ∧ left_loop s = true
                 ∧ ∀ e, e ∈ logged s ↔ snd repoFetch = Some e ∨ snd aurFetch = Some e)
       ∧ (∀ e, filtered = Some e → result = ([], [], Some e))).
Proof.
  split_and!.
  - destruct filtered as [e|].
    + now exists [].
    + exists repo_first. apply upList_repo_first.
  - apply upList_can_return.
  - apply upList_returned_lists.
Qed.

(** The foreign fetch fails, the local fetch finds [A]: a run returns [A]
    and a nil error. *)
Lemma upList_partial_success_witness :
  ∃ ms, upList ([packageA], None) ([], Some "aur: request failed"%string) None ms
        = Some ([], [packageA], None).
Proof.
  exact (proj1 (upList_partial_success ([packageA], None)
                  ([], Some "aur: request failed"%string) None)).
Defined.


(** ** [upAUR]: every record received is appended *)

Lemma scanNames_id (ws : upSlice) (pkg : upgrade) (toUpgrade : upSlice) :
  scanNames ws pkg toUpgrade = toUpgrade.
Proof.
  induction ws as [|w ws IH]; simpl; [reflexivity | ].
  now destruct (String.eqb (Name w) (Name pkg)).
Qed.

(** When the loop of [upAUR] returns, it returns what it started with and,
    behind it, every record received up to the last [done], in order. *)
Lemma upAUR_loop_received (events : list aurEvent) (routines routineDone : Z)
    (toUpgrade result : upSlice) (e : error) :
  upAUR_loop events routines routineDone toUpgrade = Some (result, e) →
  e = None ∧ ∃ n, result = toUpgrade ++ received (take n events).
Proof.
  revert routineDone toUpgrade.
  induction events as [|ev events IH]; intros routineDone toUpgrade; simpl; [discriminate | ].
  destruct ev as [pkg| ].
  - intros Hloop. destruct (IH _ _ Hloop) as (-> & n & ->). split; [reflexivity | ].
    exists (S n). unfold recvPackage. rewrite scanNames_id, <- app_assoc. reflexivity.
  - destruct (routineDone + 1 =? routines).
    + intros [= <- <-]. split; [reflexivity | ]. exists 0%nat. now rewrite app_nil_r.
    + intros Hloop. destruct (IH _ _ Hloop) as (-> & n & ->). split; [reflexivity | ].
      now exists (S n).
Qed.

Lemma dones_nonneg (events : list aurEvent) : 0 ≤ dones events.
Proof. induction events as [|[pkg| ] events IH]; simpl; lia. Qed.

Lemma dones_app (l1 l2 : list aurEvent) : dones (l1 ++ l2) = dones l1 + dones l2.
Proof. induction l1 as [|[pkg| ] l1 IH]; simpl; lia. Qed.

Lemma received_app (l1 l2 : list aurEvent) :
  received (l1 ++ l2) = received l1 ++ received l2.
Proof. unfold received. apply omap_app. Qed.

Lemma recvPackage_app (toUpgrade : upSlice) (pkg : upgrade) :
  recvPackage toUpgrade pkg = toUpgrade ++ [pkg].
Proof. unfold recvPackage. now rewrite scanNames_id. Qed.

(** The loop returns at the [done] that completes the count. *)
Lemma upAUR_loop_returns (pre post : list aurEvent) (routines routineDone : Z)
    (toUpgrade : upSlice) :
  dones pre = routines - routineDone - 1 →
  upAUR_loop (pre ++ OnDone :: post) routines routineDone toUpgrade
  = Some (toUpgrade ++ received pre, None).
Proof.
  revert routineDone toUpgrade.
  induction pre as [|[pkg| ] pre IH]; intros routineDone toUpgrade Hdones; simpl in *.
  - rewrite (proj2 (Z.eqb_eq _ _)) by lia. now rewrite app_nil_r.
  - rewrite IH by exact Hdones. rewrite recvPackage_app, <- app_assoc. reflexivity.
  - pose proof (dones_nonneg pre).
    rewrite (proj2 (Z.eqb_neq _ _)) by lia. apply IH. lia.
Qed.

(** Short of that [done], the loop is still waiting. *)
Lemma upAUR_loop_waits (events : list aurEvent) (routines routineDone : Z)
    (toUpgrade : upSlice) :
  dones events < routines - routineDone →
  upAUR_loop events routines routineDone toUpgrade = None.
Proof.
  revert routineDone toUpgrade.
  induction events as [|[pkg| ] events IH]; intros routineDone toUpgrade Hdones;
    simpl in *; [reflexivity | now apply IH | ].
  pose proof (dones_nonneg events).
  rewrite (proj2 (Z.eqb_neq _ _)) by lia. apply IH. lia.
Qed.

Lemma upAUR_returns_at (Devel : bool) (pre post : list aurEvent) :
  dones pre = (if Devel then 1 else 0) →
  upAUR Devel (pre ++ OnDone :: post) = Some (received pre, None).
Proof.
  intros Hdones. unfold upAUR.
  destruct Devel; simpl; now rewrite upAUR_loop_returns by (rewrite Hdones; lia).
Qed.

(** C3: in the receiving loop of [upAUR] the scan of the accumulated list for
    the name of the record received changes nothing, and the record is
    appended whatever the list holds, also when the list already has an entry
    of that name, and also when it has the very same record: every record
    received on [packageC] before [upAUR] returns is in the list that [upAUR]
    returns, at its place in the order of arrival, whatever was received
    before it. *)
Theorem recvPackage_always_appends (Devel : bool) (before after post : list aurEvent)
    (toUpgrade : upSlice) (pkg : upgrade) :
  dones (before ++ OnPackageC pkg :: after) = (if Devel then 1 else 0) →
  upAUR Devel (before ++ OnPackageC pkg :: after ++ OnDone :: post)
  = Some (received before ++ pkg :: received after, None)
  ∧ scanNames toUpgrade pkg toUpgrade = toUpgrade
  ∧ recvPackage toUpgrade pkg = toUpgrade ++ [pkg]
  ∧ recvPackage (pkg :: toUpgrade) pkg = pkg :: toUpgrade ++ [pkg]
  ∧ ∀ events routines routineDone,
      upAUR_loop (OnPackageC pkg :: events) routines routineDone toUpgrade
      = upAUR_loop events routines routineDone (toUpgrade ++ [pkg]).
Proof.
  intros Hdones. split_and!.
  - replace (before ++ OnPackageC pkg :: after ++ OnDone :: post)
      with ((before ++ OnPackageC pkg :: after) ++ OnDone :: post)
      by (now rewrite <- app_assoc).
    rewrite upAUR_returns_at by exact Hdones.
    now rewrite received_app.
  - apply scanNames_id.
  - apply recvPackage_app.
  - apply (recvPackage_app (pkg :: toUpgrade)).
  - intros events routines routineDone. simpl. now rewrite recvPackage_app.
Qed.

(** [B] is received, then [A], then [B] once more: all three are returned. *)
Lemma recvPackage_always_appends_witness :
  dones ([OnPackageC packageB; OnPackageC packageA] ++ OnPackageC packageB :: []) = 0
  ∧ upAUR false [OnPackageC packageB; OnPackageC packageA; OnPackageC packageB; OnDone]
    = Some ([packageB; packageA; packageB], None).
Proof.
  assert (Hdones : dones ([OnPackageC packageB; OnPackageC packageA]
                          ++ OnPackageC packageB :: []) = 0) by reflexivity.
  split; [exact Hdones | ].
  exact (proj1 (recvPackage_always_appends false
                  [OnPackageC packageB; OnPackageC packageA] [] [] [] packageB Hdones)).
Defined.

(** The same record sent twice is listed twice. *)
Example upAUR_keeps_duplicates :
  upAUR false [OnPackageC packageB; OnPackageC packageB; OnDone]
  = Some ([packageB; packageB], None).
Proof. reflexivity. Qed.

(** ** [upDevel] *)

Lemma findRemote_foldl (remote : list Package) (vcsName : string) (found : option Package) :
  match foldl (fun pkg r => if String.eqb (pkgName r) vcsName then Some r else pkg)
              found remote with
  | Some pkg => (found = Some pkg ∨ pkg ∈ remote ∧ pkgName pkg = vcsName)
  | None => found = None ∧ ∀ r, r ∈ remote → pkgName r ≠ vcsName
  end.
Proof.
  revert found. induction remote as [|r remote IH]; intros found; simpl.
  - destruct found; [now left | split; [reflexivity | intros r Hr; inversion Hr]].
  - specialize (IH (if String.eqb (pkgName r) vcsName then Some r else found)).
    destruct (foldl _ _ remote) as [pkg|].
    + destruct IH as [Hfound | (Hin & Hname)].
      * destruct (String.eqb_spec (pkgName r) vcsName) as [Heq|Hne].
        -- injection Hfound as <-. right. split; [left | exact Heq].
        -- now left.
      * right. split; [now right | exact Hname].
    + destruct IH as (Hfound & Hall).
      destruct (String.eqb_spec (pkgName r) vcsName) as [Heq|Hne]; [discriminate | ].
      split; [exact Hfound | ].
      intros r' Hr'. apply elem_of_cons in Hr' as [->|Hr']; [exact Hne | now apply Hall].
Qed.

(** [found] is set exactly when an installed package has the name. *)
Lemma findRemote_Some (remote : list Package) (vcsName : string) (pkg : Package) :
  findRemote remote vcsName = Some pkg → pkg ∈ remote ∧ pkgName pkg = vcsName.
Proof.
  unfold findRemote. intros Hf.
  pose proof (findRemote_foldl remote vcsName None) as Hspec. rewrite Hf in Hspec.
  destruct Hspec as [Hnone | Hin]; [discriminate | exact Hin].
Qed.

Lemma findRemote_None (remote : list Package) (vcsName : string) :
  findRemote remote vcsName = None ↔ ∀ r, r ∈ remote → pkgName r ≠ vcsName.
Proof.
  unfold findRemote. pose proof (findRemote_foldl remote vcsName None) as Hspec. split.
  - intros Hf. rewrite Hf in Hspec. apply Hspec.
  - intros Hall. destruct (foldl _ _ remote) as [pkg|]; [ | reflexivity].
    destruct Hspec as [Hnone | (Hin & Hname)]; [discriminate | ].
    now destruct (Hall pkg Hin).
Qed.

(** What [upDevel] does is what it does for each entry, and [done <- true]. *)
Lemma elem_of_upDevel (remote : list Package) (savedInfo : list (string * shaInfos))
    (eff : develEffect) :
  eff ∈ upDevel remote savedInfo
  ↔ eff = SendDone
    ∨ ∃ vcsName e, (vcsName, e) ∈ savedInfo ∧ eff ∈ upDevel_entry remote vcsName e.
Proof.
  unfold upDevel. rewrite elem_of_app, list_elem_of_singleton.
  rewrite list_elem_of_In, in_flat_map. split.
  - intros [((v & e) & Hin & Heff) | ->]; [right | now left].
    exists v, e. now rewrite !list_elem_of_In.
  - intros [-> | (v & e & Hin & Heff)]; [now right | left].
    exists (v, e). now rewrite <- !list_elem_of_In.
Qed.

Lemma upDevel_app (remote : list Package) (before after : list (string * shaInfos)) :
  upDevel remote (before ++ after)
  = flat_map (fun ve => upDevel_entry remote (fst ve) (snd ve)) before
    ++ upDevel remote after.
Proof. unfold upDevel. now rewrite flat_map_app, <- app_assoc. Qed.

(** C9: for an entry of the VCS metadata that needs an update, [upDevel] does
    exactly one thing, at the entry's turn: between what it does for the
    entries before and what it does for the entries after, there is one
    effect.  When an installed package has the entry's name and is not
    ignored, it sends one upgrade record, of the repository [devel], whose
    candidate version is the marker [latest-commit]; when that package is
    ignored, it prints one warning and sends nothing; when no installed
    package has the name, it asks once for the removal of the entry and sends
    nothing. *)
Theorem upDevel_entry_cases (remote : list Package) (before after : list (string * shaInfos))
    (vcsName : string) (e : shaInfos) :
  needsUpdate e = true →
  ∃ (eff : develEffect) (earlier : list develEffect),
    upDevel remote before = earlier ++ [SendDone]
    ∧ upDevel remote (before ++ (vcsName, e) :: after)
      = earlier ++ eff :: upDevel remote after
    ∧ upDevel_entry remote vcsName e = [eff]
    ∧ ((∃ pkg, pkg ∈ remote ∧ pkgName pkg = vcsName ∧ pkgShouldIgnore pkg = false
               ∧ eff = SendUpgrade (Upgrade (pkgName pkg) "devel" (pkgVersion pkg)
                                            "latest-commit"))
       ∨ (∃ pkg, pkg ∈ remote ∧ pkgName pkg = vcsName ∧ pkgShouldIgnore pkg = true
                 ∧ eff = PrintWarning (pkgName pkg) (pkgVersion pkg))
       ∨ ((∀ r, r ∈ remote → pkgName r ≠ vcsName)
          ∧ eff = RemoveVCSPackage [vcsName])).
Proof.
  intros Hneeds.
  assert (Hentry : ∃ eff,
            upDevel_entry remote vcsName e = [eff]
            ∧ ((∃ pkg, pkg ∈ remote ∧ pkgName pkg = vcsName ∧ pkgShouldIgnore pkg = false
                       ∧ eff = SendUpgrade (Upgrade (pkgName pkg) "devel" (pkgVersion pkg)
                                                    "latest-commit"))
               ∨ (∃ pkg, pkg ∈ remote ∧ pkgName pkg = vcsName ∧ pkgShouldIgnore pkg = true
                         ∧ eff = PrintWarning (pkgName pkg) (pkgVersion pkg))
               ∨ ((∀ r, r ∈ remote → pkgName r ≠ vcsName)
                  ∧ eff = RemoveVCSPackage [vcsName]))).
  { unfold upDevel_entry. rewrite Hneeds.
    destruct (findRemote remote vcsName) as [pkg|] eqn:Hfind.
    - apply findRemote_Some in Hfind as (Hin & Hname).
      destruct (pkgShouldIgnore pkg) eqn:Hignore; eexists; (split; [reflexivity | ]).
      + right; left. now exists pkg.
      + left. now exists pkg.
    - eexists. split; [reflexivity | ].
      right; right. split; [now apply findRemote_None | reflexivity]. }
  destruct Hentry as (eff & Hone & Hcase).
  exists eff, (flat_map (fun ve => upDevel_entry remote (fst ve) (snd ve)) before).
  split_and!; [reflexivity | | exact Hone | exact Hcase].
  rewrite upDevel_app. f_equal.
  change ((vcsName, e) :: after) with ([(vcsName, e)] ++ after).
  rewrite upDevel_app. simpl. rewrite Hone. reflexivity.
Qed.

(** An entry [idle-git] that needs no update, then the entry [yay-git] of an
    installed package, then an entry [gone-git] of no package: at the turn of
    [yay-git] one record is sent. *)
Lemma upDevel_entry_cases_witness :
  let remote := [{| pkgName := "yay-git"; pkgVersion := "r1-1"; pkgShouldIgnore := false |}] in
  let before := [("idle-git"%string, {| needsUpdate := false |})] in
  let after := [("gone-git"%string, {| needsUpdate := true |})] in
  needsUpdate {| needsUpdate := true |} = true
  ∧ upDevel remote (before ++ ("yay-git"%string, {| needsUpdate := true |}) :: after)
    = [SendUpgrade (Upgrade "yay-git" "devel" "r1-1" "latest-commit");
       RemoveVCSPackage ["gone-git"%string]; SendDone].
Proof.
  intros remote before after. split; [reflexivity | ].
  destruct (upDevel_entry_cases remote before after "yay-git" {| needsUpdate := true |}
              eq_refl) as (eff & earlier & Hbefore & Hall & Hone & _).
  injection Hone as <-.
  assert (Hearlier : earlier = []).
  { apply (app_inv_tail [SendDone]). symmetry. exact Hbefore. }
  rewrite Hall, Hearlier. reflexivity.
Defined.

Example upDevel_three_entries :
  upDevel [{| pkgName := "yay-git"; pkgVersion := "r1-1"; pkgShouldIgnore := false |};
           {| pkgName := "vim-git"; pkgVersion := "r7-1"; pkgShouldIgnore := true |}]
          [("yay-git"%string, {| needsUpdate := true |});
           ("vim-git"%string, {| needsUpdate := true |});
           ("gone-git"%string, {| needsUpdate := true |});
           ("idle-git"%string, {| needsUpdate := false |})]
  = [SendUpgrade (Upgrade "yay-git" "devel" "r1-1" "latest-commit");
     PrintWarning "vim-git" "r7-1";
     RemoveVCSPackage ["gone-git"%string];
     SendDone].
Proof. reflexivity. Qed.

(** ** [getVersionDiff] *)

Section VersionDiffFacts.
Context `{VersionParser} `{Colours}.

(** When both versions parse, the display depends on whether the
    [Version] fields are equal. *)
Lemma getVersionDiff_parsed (oldVersion newversion : string) (old new : CompleteVersion) :
  NewCompleteVersion oldVersion = Some old →
  NewCompleteVersion newversion = Some new →
  getVersionDiff oldVersion newversion
  = if String.eqb (Version old) (Version new)
    then (Version old +:+ "-" +:+ red (Pkgrel old),
          Version new +:+ "-" +:+ green (Pkgrel new))
    else (red (Version old) +:+ "-" +:+ Pkgrel old,
          bold (green (Version new)) +:+ "-" +:+ Pkgrel new).
Proof. unfold getVersionDiff. now intros -> ->. Qed.

(** When a version does not parse, each side that failed is the marker and
    each side that parsed is the empty string. *)
Lemma getVersionDiff_failed (oldVersion newversion : string) :
  NewCompleteVersion oldVersion = None ∨ NewCompleteVersion newversion = None →
  getVersionDiff oldVersion newversion
  = (if NewCompleteVersion oldVersion is None then red invalidVersion else EmptyString,
     if NewCompleteVersion newversion is None then red invalidVersion else EmptyString).
Proof.
  unfold getVersionDiff.
  destruct (NewCompleteVersion oldVersion), (NewCompleteVersion newversion);
    intros [Hf|Hf]; (discriminate || reflexivity).
Qed.
End VersionDiffFacts.

(** C4, as the code has it: when exactly one of the two versions fails to
    parse, [getVersionDiff] returns the marker [Invalid Version], in red, for
    the side that failed and the empty string for the side that parsed; it has
    no error result.  The two displays of a parsed side are computed only when
    both sides parse. *)
Theorem one_side_invalid `{VersionParser} `{Colours} (oldVersion newversion : string) :
  (NewCompleteVersion oldVersion = None ↔ NewCompleteVersion newversion ≠ None) →
  getVersionDiff oldVersion newversion
  = if NewCompleteVersion oldVersion is None
    then (red invalidVersion, EmptyString)
    else (EmptyString, red invalidVersion).
Proof.
  intros Hone. rewrite getVersionDiff_failed.
  - destruct (NewCompleteVersion oldVersion) as [old|],
             (NewCompleteVersion newversion) as [new|]; try reflexivity.
    + destruct Hone as [_ Hone]. now discriminate Hone.
    + destruct Hone as [Hone _]. now destruct (Hone eq_refl).
  - destruct (NewCompleteVersion oldVersion) as [old|]; [right | now left].
    destruct (NewCompleteVersion newversion) as [new|]; [ | reflexivity].
    destruct Hone as [_ Hone]. now discriminate Hone.
Qed.

Lemma one_side_invalid_witness :
  (@NewCompleteVersion splitParser "1.0-1" = None
   ↔ @NewCompleteVersion splitParser "1:2:3" ≠ None)
  ∧ @getVersionDiff splitParser taggedColours "1.0-1" "1:2:3"
    = (EmptyString, "<red>Invalid Version<reset>"%string).
Proof.
  assert (Hone : @NewCompleteVersion splitParser "1.0-1" = None
                 ↔ @NewCompleteVersion splitParser "1:2:3" ≠ None).
  { split; [discriminate | intros Hn; now contradiction Hn]. }
  split; [exact Hone | ].
  exact (@one_side_invalid splitParser taggedColours "1.0-1" "1:2:3" Hone).
Defined.

(** The claim fails for the old version [1.0-1], which parses, and the new
    version [1:2:3], which does not: the left display is neither of the two
    displays of the version [1.0] and the release [1]. *)
Lemma one_side_invalid_counterexample :
  ¬ (∀ old, @NewCompleteVersion splitParser "1.0-1" = Some old →
            @NewCompleteVersion splitParser "1:2:3" = None →
            @normal_left taggedColours old
              (fst (@getVersionDiff splitParser taggedColours "1.0-1" "1:2:3"))).
Proof.
  intros Hclaim.
  destruct (Hclaim _ eq_refl eq_refl) as [Hleft | Hleft]; vm_compute in Hleft; discriminate.
Qed.

(** C5, as the code has it: when both versions parse, the code compares the
    two [Version] fields, which do not hold the epoch.  When they are equal,
    both displays are [version-release] with the same unemphasised version
    text and only the releases emphasised, the old one in red and the new one
    in green; when they differ, the whole version is emphasised on both sides,
    the old one in red and the new one in bold green, and the releases are
    not. *)
Theorem version_field_decides `{VersionParser} `{Colours} (oldVersion newversion : string)
    (old new : CompleteVersion) :
  NewCompleteVersion oldVersion = Some old →
  NewCompleteVersion newversion = Some new →
  (Version old = Version new →
   getVersionDiff oldVersion newversion
   = (Version old +:+ "-" +:+ red (Pkgrel old), Version old +:+ "-" +:+ green (Pkgrel new)))
  ∧ (Version old ≠ Version new →
     getVersionDiff oldVersion newversion
     = (red (Version old) +:+ "-" +:+ Pkgrel old,
        bold (green (Version new)) +:+ "-" +:+ Pkgrel new)).
Proof.
  intros Hold Hnew. rewrite (getVersionDiff_parsed _ _ _ _ Hold Hnew).
  destruct (String.eqb_spec (Version old) (Version new)) as [Heq|Hne]; split.
  - intros _. now rewrite <- Heq.
  - intros Hn. now destruct (Hn Heq).
  - intros Heq. now destruct (Hne Heq).
  - reflexivity.
Qed.

Lemma version_field_decides_witness :
  @getVersionDiff splitParser taggedColours "1:1.0-1" "2:1.0-2"
  = ("1.0-<red>1<reset>"%string, "1.0-<green>2<reset>"%string).
Proof.
  exact (proj1 (@version_field_decides splitParser taggedColours "1:1.0-1" "2:1.0-2"
                  {| Version := "1.0"; Epoch := 1; Pkgrel := "1" |}
                  {| Version := "1.0"; Epoch := 2; Pkgrel := "2" |} eq_refl eq_refl)
               eq_refl).
Defined.

(** The claim fails for [1:1.0-1] and [2:1.0-2]: the epochs differ, so epoch
    and version together differ, and the version is not emphasised. *)
Lemma version_field_decides_counterexample :
  ¬ (∀ old new,
       @NewCompleteVersion splitParser "1:1.0-1" = Some old →
       @NewCompleteVersion splitParser "2:1.0-2" = Some new →
       (Epoch old, Version old) ≠ (Epoch new, Version new) →
       @getVersionDiff splitParser taggedColours "1:1.0-1" "2:1.0-2"
       = (@red taggedColours (Version old) +:+ "-" +:+ Pkgrel old,
          @bold taggedColours (@green taggedColours (Version new)) +:+ "-" +:+ Pkgrel new)).
Proof.
  intros Hclaim.
  specialize (Hclaim _ _ eq_refl eq_refl). vm_compute in Hclaim.
  assert (Hdiff : (1, "1.0"%string) ≠ (2, "1.0"%string)) by discriminate.
  specialize (Hclaim Hdiff). discriminate.
Qed.

(** ** The order of [Less] *)

Section OrderingFacts.
Context `{Unicode}.

(** The loop from [idx] on answers [true] exactly when, at the first index
    from [idx] on where the runes differ, the left rune is the larger. *)
Lemma lessLoop_true (iRunes jRunes : list Z) (idx todo : nat) :
  lessLoop iRunes jRunes idx todo = true ↔
  ∃ k : nat,
    (idx ≤ k < idx + todo)%nat
    ∧ (∀ m : nat, (idx ≤ m < k)%nat → nth m iRunes 0 = nth m jRunes 0)
    ∧ (ToLower (nth k jRunes 0) < ToLower (nth k iRunes 0)
       ∨ ToLower (nth k jRunes 0) = ToLower (nth k iRunes 0)
         ∧ nth k jRunes 0 < nth k iRunes 0).
Proof.
  revert idx. induction todo as [|todo IH]; intros idx; simpl.
  - split; [discriminate | intros (k & Hk & _); lia].
  - destruct (Z.eqb_spec (ToLower (nth idx iRunes 0)) (ToLower (nth idx jRunes 0)))
      as [Hlow|Hlow]; simpl.
    + destruct (Z.eqb_spec (nth idx iRunes 0) (nth idx jRunes 0)) as [Heq|Hne]; simpl.
      * rewrite IH. split.
        -- intros (k & Hk & Hsame & Hlarger). exists k. split; [lia | split; [ | done]].
           intros m Hm. destruct (decide (m = idx)) as [->|Hm']; [done | ].
           apply Hsame. lia.
        -- intros (k & Hk & Hsame & Hlarger).
           destruct (decide (k = idx)) as [->|Hk'].
           ++ rewrite Heq in Hlarger. lia.
           ++ exists k. split; [lia | split; [ | done]]. intros m Hm. apply Hsame. lia.
      * rewrite Z.ltb_lt. split.
        -- intros Hlt. exists idx. split; [lia | split; [intros; lia | right; split; lia]].
        -- intros (k & Hk & Hsame & Hlarger).
           destruct (decide (k = idx)) as [->|Hk']; [lia | ].
           now destruct Hne; apply Hsame; lia.
    + rewrite Z.ltb_lt. split.
      * intros Hlt. exists idx. split; [lia | split; [intros; lia | now left]].
      * intros (k & Hk & Hsame & Hlarger).
        destruct (decide (k = idx)) as [->|Hk']; [lia | ].
        destruct Hlow. f_equal. apply Hsame. lia.
Qed.

Lemma take_eq_nth (k : nat) (l1 l2 : list Z) :
  (k ≤ length l1)%nat → (k ≤ length l2)%nat →
  take k l1 = take k l2 ↔ ∀ m : nat, (m < k)%nat → nth m l1 0 = nth m l2 0.
Proof.
  revert l1 l2. induction k as [|k IH]; intros l1 l2 H1 H2; simpl.
  - split; [intros _ m Hm; lia | reflexivity].
  - destruct l1 as [|x1 l1], l2 as [|x2 l2]; simpl in *; try lia.
    split.
    + intros [= -> Htake] m Hm. destruct m as [|m]; [reflexivity | ].
      apply (IH l1 l2); (done || lia).
    + intros Hnth. f_equal; [apply (Hnth 0%nat); lia | ].
      apply IH; [lia.. | ]. intros m Hm. apply (Hnth (S m)). lia.
Qed.

(** [Less] on two repository names is the descending order of the claim. *)
Lemma lessRepository_descends (ri rj : string) :
  lessRepository ri rj = true ↔ descends (runes ri) (runes rj).
Proof.
  unfold lessRepository, descends. rewrite lessLoop_true.
  set (iR := runes ri). set (jR := runes rj).
  assert (Hmin : (if (length jR <? length iR)%nat then length jR else length iR)
                 = (length iR `min` length jR)%nat).
  { destruct (Nat.ltb_spec (length jR) (length iR)); lia. }
  rewrite Hmin. split.
  - intros (k & Hk & Hsame & Hlarger). exists k. split_and!; [lia.. | | done].
    apply take_eq_nth; [lia.. | ]. intros m Hm. apply Hsame. lia.
  - intros (k & Hi & Hj & Htake & Hlarger). exists k. split_and!; [lia.. | | done].
    intros m Hm. apply (take_eq_nth k iR jR); (done || lia).
Qed.

(** Names of which one begins with the other are not ordered. *)
Lemma lessRepository_prefix (ri rj : string) :
  runes ri `prefix_of` runes rj ∨ runes rj `prefix_of` runes ri →
  lessRepository ri rj = false.
Proof.
  intros Hprefix. apply not_true_is_false. rewrite lessRepository_descends.
  intros (k & Hi & Hj & Htake & Hlarger).
  assert (Hnth : nth k (runes ri) 0 = nth k (runes rj) 0).
  { destruct Hprefix as [(rest & ->) | (rest & ->)].
    - now rewrite app_nth1 by lia.
    - now rewrite app_nth1 by lia. }
  rewrite Hnth in Hlarger. lia.
Qed.

(** [Less] reads the [Repository] fields only. *)
Lemma upSlice_Less_repository (u u' : upSlice) (i j : nat) :
  Repository <$> u' = Repository <$> u →
  upSlice_Less u' i j = upSlice_Less u i j.
Proof.
  intros Hrepo. unfold upSlice_Less.
  assert (Hlook : ∀ k, Repository <$> (u' !! k) = Repository <$> (u !! k)).
  { intros k. now rewrite <- !list_lookup_fmap, Hrepo. }
  pose proof (Hlook i) as Hi. pose proof (Hlook j) as Hj.
  destruct (u' !! i) as [ui'|], (u !! i) as [ui|]; simpl in Hi |- *; try discriminate;
    [ | reflexivity].
  destruct (u' !! j) as [uj'|], (u !! j) as [uj|]; simpl in Hj |- *; try discriminate;
    [ | reflexivity].
  injection Hi as ->. injection Hj as ->. reflexivity.
Qed.
End OrderingFacts.

(** Only the local list is sorted: the lines shown are those of the sorted
    local list and then those of the foreign list as it was received. *)
Lemma upgradePkgs_shown `{VersionParser} `{Colours} `{Sorting}
    (aurList repoList : upSlice) (NoConfirm : bool) (readLine : string * bool * error) :
  upSlice_Len aurList + upSlice_Len repoList ≠ 0 →
  shown (upgradePkgs (aurList, repoList, None) NoConfirm readLine)
  = upSlice_Print (sort_Sort repoList) (upSlice_Len aurList + 1) ++ upSlice_Print aurList 1.
Proof.
  intros Hsome. unfold upgradePkgs.
  destruct (Z.eqb_spec (upSlice_Len aurList + upSlice_Len repoList) 0); [done | ].
  destruct NoConfirm; [reflexivity | ].
  destruct readLine as [[numberBuf overflow] errRead].
  now destruct (bool_decide (errRead ≠ None) || overflow).
Qed.

Lemma upSlice_Print_names `{VersionParser} `{Colours} (u : upSlice) (start : Z) :
  lineName <$> upSlice_Print u start = Name <$> u.
Proof.
  unfold upSlice_Print. apply list_eq. intros k.
  rewrite !list_lookup_fmap, list_lookup_imap.
  now destruct (u !! k).
Qed.

(** C10: [Less] reads only the [Repository] fields, not the names or the
    versions; it is the descending order of the first differing rune, by lower
    case first and by the rune itself next, within the length of the shorter
    name.  So for two records of which one repository name begins with the
    other (the names agree up to the length of the shorter, as [core] and
    [core2] do) [Less] is false in both orders.  And of the two lists only the
    local one is sorted before it is printed: the foreign lines follow the
    foreign list in the order it was received. *)
Theorem Less_unordered_on_prefix `{Unicode} `{VersionParser} `{Colours} `{Sorting}
    (u : upSlice) (i j : nat) (ui uj : upgrade) :
  u !! i = Some ui →
  u !! j = Some uj →
  runes (Repository ui) `prefix_of` runes (Repository uj)
  ∨ runes (Repository uj) `prefix_of` runes (Repository ui) →
  upSlice_Less u i j = Some false
  ∧ upSlice_Less u j i = Some false
  ∧ (∀ u' a b, Repository <$> u' = Repository <$> u →
               upSlice_Less u' a b = upSlice_Less u a b)
  ∧ (∀ a b ua ub, u !! a = Some ua → u !! b = Some ub →
                  (upSlice_Less u a b = Some true
                   ↔ descends (runes (Repository ua)) (runes (Repository ub))))
  ∧ (∀ aurList NoConfirm readLine,
       upSlice_Len aurList + upSlice_Len u ≠ 0 →
       shown (upgradePkgs (aurList, u, None) NoConfirm readLine)
       = upSlice_Print (sort_Sort u) (upSlice_Len aurList + 1) ++ upSlice_Print aurList 1
       ∧ lineName <$> upSlice_Print aurList 1 = Name <$> aurList).
Proof.
  intros Hi Hj Hprefix. split_and!.
  - unfold upSlice_Less. rewrite Hi, Hj. simpl. f_equal.
    now apply lessRepository_prefix.
  - unfold upSlice_Less. rewrite Hi, Hj. simpl. f_equal.
    apply lessRepository_prefix. tauto.
  - intros u' a b. apply upSlice_Less_repository.
  - intros a b ua ub Ha Hb. unfold upSlice_Less. rewrite Ha, Hb. simpl.
    rewrite <- lessRepository_descends. split; [now intros [= ->] | now intros ->].
  - intros aurList NoConfirm readLine Hsome. split.
    + now apply upgradePkgs_shown.
    + apply upSlice_Print_names.
Qed.

(** The repositories [core] and [core2]: neither record is before the other. *)
Lemma Less_unordered_on_prefix_witness :
  let u := [Upgrade "linux" "core" "6.1-1" "6.2-1"; Upgrade "zsh" "core2" "5.8-1" "5.9-1"] in
  @upSlice_Less asciiUnicode u 0 1 = Some false
  ∧ @upSlice_Less asciiUnicode u 1 0 = Some false.
Proof.
  intros u.
  assert (Hprefix : @runes asciiUnicode "core" `prefix_of` @runes asciiUnicode "core2"
                    ∨ @runes asciiUnicode "core2" `prefix_of` @runes asciiUnicode "core").
  { left. exists [50]. reflexivity. }
  destruct (@Less_unordered_on_prefix asciiUnicode splitParser plainColours insertionSorting
              u 0 1 _ _ eq_refl eq_refl Hprefix) as (Hij & Hji & _).
  split; [exact Hij | exact Hji].
Defined.

(** With ASCII names, [extra] is before [core], and [core] is before
    [community]; upper case is after lower case. *)
Example lessRepository_examples :
  lessRepository "extra" "core" = true
  ∧ lessRepository "core" "extra" = false
  ∧ lessRepository "core" "community" = true
  ∧ lessRepository "core" "Core" = true
  ∧ lessRepository "Core" "core" = false.
Proof. repeat split; reflexivity. Qed.

(** ** The tokens of a line, and the selections of the specification *)

Lemma Fields_from_nonempty (s : string) (word : option string) (w : string) :
  word ≠ Some EmptyString → w ∈ Go.Fields_from s word → w ≠ EmptyString.
Proof.
  revert word. induction s as [|c s IH]; intros word Hword; simpl.
  - destruct word as [w0|]; simpl; intros Hin.
    + apply list_elem_of_singleton in Hin as ->. congruence.
    + inversion Hin.
  - destruct (Go.isSpace c).
    + rewrite elem_of_app. intros [Hin | Hin].
      * destruct word as [w0|]; simpl in Hin.
        -- apply list_elem_of_singleton in Hin as ->. congruence.
        -- inversion Hin.
      * now apply (IH None).
    + apply IH. destruct word as [w0|]; simpl; [ | discriminate].
      destruct w0; discriminate.
Qed.

(** No token is empty, so that [numS[0]] is defined for each. *)
Lemma Fields_nonempty (s w : string) : w ∈ Go.Fields s → w ≠ EmptyString.
Proof. apply Fields_from_nonempty. discriminate. Qed.

(** With three foreign entries and two local ones: [2] is index 1 of the
    foreign list, [^2] alone lists everything but that index, a range reads
    the same in both directions, and [0] and [99] list nothing. *)
Example selection_examples :
  parseTokens 3 2 ["2"] no_selection
  = {| repoNums := []; aurNums := [1]; excludeRepo := []; excludeAur := [] |}
  ∧ resolveSelection 3 2 (parseTokens 3 2 ["^2"] no_selection) = ([0; 2], [0; 1])
  ∧ parseTokens 3 2 ["1-3"] no_selection = parseTokens 3 2 ["3-1"] no_selection
  ∧ parseTokens 3 2 ["0"; "99"] no_selection = no_selection
  ∧ resolveSelection 3 2 (parseTokens 3 2 ["4-5"; "1"] no_selection) = ([2], [1; 0]).
Proof. repeat split; reflexivity. Qed.

(** In the scenario, an empty line keeps both packages, and the line [1]
    keeps [A] only. *)
Example scenario_lines :
  elements (repoNames (scenario "")) = ["A"%string]
  ∧ elements (aurNames (scenario "")) = ["B"%string]
  ∧ elements (repoNames (scenario "1")) = ["A"%string]
  ∧ elements (aurNames (scenario "1")) = []
  ∧ elements (repoNames (scenario "^1")) = []
  ∧ elements (aurNames (scenario "^1")) = ["B"%string].
Proof. repeat split; vm_compute; reflexivity. Qed.

(** * Further properties of the code *)

(** ** [containsInt] and [removeIntListFromList] *)

(** X1: [containsInt s e] answers whether [e] occurs in [s]. *)
Theorem containsInt_decides (s : list Z) (e : Z) :
  containsInt s e = bool_decide (e ∈ s).
Proof.
  destruct (containsInt s e) eqn:Hc.
  - symmetry. apply bool_decide_eq_true_2. now apply containsInt_elem_of.
  - symmetry. apply bool_decide_eq_false_2. now apply containsInt_false.
Qed.

(** X2: [removeIntListFromList src target] is [target] without the elements
    that occur in [src], the others in the order they had, each as often as it
    was there; it never grows the list, and removing [src] once more changes
    nothing. *)
Theorem removeIntListFromList_removes (src target : list Z) :
  removeIntListFromList src target = filter (λ x, x ∉ src) target
  ∧ (∀ x, x ∈ removeIntListFromList src target ↔ x ∈ target ∧ x ∉ src)
  ∧ removeIntListFromList src target `sublist_of` target
  ∧ removeIntListFromList src (removeIntListFromList src target)
    = removeIntListFromList src target.
Proof.
  rewrite !removeIntListFromList_filter. split_and!.
  - reflexivity.
  - intros x. rewrite list_elem_of_filter. tauto.
  - apply sublist_filter.
  - rewrite list_filter_filter. apply list_filter_iff. tauto.
Qed.

(** ** The final loops of [upgradePkgs] *)

(** X3: the final loop over a slice keeps a name exactly when the slice has
    an entry of that name at an index that is not listed; a name that two
    entries share is kept as soon as one of the two indices is not listed. *)
Theorem namesToUpgrade_keeps (up : upSlice) (nums : list Z) (x : string) :
  x ∈ namesToUpgrade up nums
  ↔ ∃ (i : nat) (u : upgrade), up !! i = Some u ∧ Name u = x ∧ Z.of_nat i ∉ nums.
Proof. apply elem_of_namesToUpgrade. Qed.

Lemma elem_of_namesOf (up : upSlice) (x : string) :
  x ∈ namesOf up ↔ ∃ (i : nat) (u : upgrade), up !! i = Some u ∧ Name u = x.
Proof.
  unfold namesOf. rewrite elem_of_list_to_set, list_elem_of_fmap. split.
  - intros (u & -> & Hin). apply list_elem_of_lookup in Hin as (i & Hi). now exists i, u.
  - intros (i & u & Hi & <-). exists u. split; [reflexivity | ].
    now apply list_elem_of_lookup_2 in Hi.
Qed.

Lemma namesToUpgrade_subseteq (up : upSlice) (nums : list Z) :
  namesToUpgrade up nums ⊆ namesOf up.
Proof.
  intros x. rewrite elem_of_namesToUpgrade, elem_of_namesOf.
  intros (i & u & Hi & Hx & _). now exists i, u.
Qed.

Lemma namesToUpgrade_all (up : upSlice) : namesToUpgrade up [] = namesOf up.
Proof.
  apply set_eq. intros x. rewrite elem_of_namesToUpgrade, elem_of_namesOf. split.
  - intros (i & u & Hi & Hx & _). now exists i, u.
  - intros (i & u & Hi & Hx). exists i, u. split_and!; try done. intros Hin; inversion Hin.
Qed.

Lemma namesOf_perm (up up' : upSlice) : up ≡ₚ up' → namesOf up = namesOf up'.
Proof.
  intros Hperm. unfold namesOf. apply list_to_set_perm_L. now apply fmap_Permutation.
Qed.

(** ** Indices stay within the slices *)

Lemma within_snoc (len : Z) (nums : list Z) (i : Z) :
  within len nums → 0 ≤ i < len → within len (nums ++ [i]).
Proof.
  intros Hnums Hi. apply Forall_app. split; [exact Hnums | ].
  apply Forall_cons. split; [exact Hi | apply Forall_nil_2].
Qed.

Lemma addTarget_within (lenAur lenRepo : Z) (negate : bool) (sel : selection) (target : Z) :
  selection_within lenAur lenRepo sel →
  selection_within lenAur lenRepo (addTarget lenAur lenRepo negate sel target).
Proof.
  intros (Hr & Ha & Hxr & Hxa). unfold addTarget.
  destruct (Z.gtb_spec target (lenAur + lenRepo)); simpl; [done | ].
  destruct (Z.leb_spec target 0); simpl; [done | ].
  destruct (Z.leb_spec target lenAur); destruct negate;
    unfold selection_within; simpl; split_and!; try done;
    apply within_snoc; (done || lia).
Qed.

Lemma parseToken_within (lenAur lenRepo : Z) (sel : selection) (numS : string) :
  selection_within lenAur lenRepo sel →
  selection_within lenAur lenRepo (parseToken lenAur lenRepo sel numS).
Proof.
  unfold parseToken. destruct (tokenNumbers (uncaret numS)) as [numbers|]; [ | done].
  revert sel. induction numbers as [|n numbers IH]; intros sel Hsel; simpl; [done | ].
  apply IH. now apply addTarget_within.
Qed.

Lemma parseTokens_within (lenAur lenRepo : Z) (tokens : list string) (sel : selection) :
  selection_within lenAur lenRepo sel →
  selection_within lenAur lenRepo (parseTokens lenAur lenRepo tokens sel).
Proof.
  unfold parseTokens. revert sel.
  induction tokens as [|numS tokens IH]; intros sel Hsel; simpl; [done | ].
  apply IH. now apply parseToken_within.
Qed.

Lemma within_filter (len : Z) (P : Z → Prop) `{∀ x, Decision (P x)} (nums : list Z) :
  within len nums → within len (filter P nums).
Proof.
  unfold within. rewrite !Forall_forall. intros Hall i Hin.
  apply list_elem_of_filter in Hin as (_ & Hin). now apply Hall.
Qed.

Lemma within_fill (len : Z) : within len (if len >? 0 then BuildIntRange 0 (len - 1) else []).
Proof.
  destruct (Z.gtb_spec len 0) as [Hpos|Hzero]; [ | apply Forall_nil_2].
  rewrite BuildIntRange_indices by lia. apply Forall_forall.
  intros i Hin. apply elem_of_seqZ in Hin. lia.
Qed.

(** X4: whatever the tokens of the line, every index that the token loop
    records lies within the slice it is recorded for, and so does every index
    of the two lists that the final loops consult: the loops are never handed
    an index that no entry has. *)
Theorem selection_stays_within (lenAur lenRepo : Z) (tokens : list string) :
  selection_within lenAur lenRepo (parseTokens lenAur lenRepo tokens no_selection)
  ∧ within lenAur
      (fst (resolveSelection lenAur lenRepo
              (parseTokens lenAur lenRepo tokens no_selection)))
  ∧ within lenRepo
      (snd (resolveSelection lenAur lenRepo
              (parseTokens lenAur lenRepo tokens no_selection))).
Proof.
  assert (Hsel : selection_within lenAur lenRepo
                   (parseTokens lenAur lenRepo tokens no_selection)).
  { apply parseTokens_within. unfold selection_within, within; simpl.
    split_and!; apply Forall_nil_2. }
  split; [exact Hsel | ].
  destruct Hsel as (Hr & Ha & _).
  unfold resolveSelection. rewrite !removeIntListFromList_filter. cbn [fst snd].
  set (sel := parseTokens lenAur lenRepo tokens no_selection) in *.
  set (fill := ((_ =? _)%nat && _ && _)%bool).
  assert (Hrange : ∀ len, (len >? 0) = true → within len (BuildIntRange 0 (len - 1))).
  { intros len Hpos. pose proof (within_fill len) as Hfill. now rewrite Hpos in Hfill. }
  split; apply within_filter.
  - destruct fill; cbn [andb]; [ | exact Ha].
    destruct (lenAur >? 0) eqn:Hpos; [now apply Hrange | exact Ha].
  - destruct fill; cbn [andb]; [ | exact Hr].
    destruct (lenRepo >? 0) eqn:Hpos; [now apply Hrange | exact Hr].
Qed.

(** ** [upgradePkgs]: the ways out, and what can be selected *)

Section UpgradePkgsFacts.
Context `{VersionParser} `{Colours} `{Sorting}.

(** X5: when [upList] gave an error, or when both lists are empty,
    [upgradePkgs] returns two empty sets and the error of [upList] (nil in
    the second case), prints no line, and does not depend on
    [config.NoConfirm] or on what could be read. *)
Theorem upgradePkgs_nothing_listed (aurList repoList : upSlice) (e : error)
    (NoConfirm : bool) (readLine : string * bool * error) :
  e ≠ None ∨ (aurList = [] ∧ repoList = []) →
  upgradePkgs (aurList, repoList, e) NoConfirm readLine
  = {| repoNames := ∅; aurNames := ∅; resultErr := e; shown := [] |}.
Proof.
  intros Hcase. unfold upgradePkgs. destruct e as [msg|]; [reflexivity | ].
  destruct Hcase as [Hne | (-> & ->)]; [now destruct Hne | reflexivity].
Qed.

(** X6: when the line cannot be read ([ReadLine] gives an error, or reports
    that the line did not fit), [upgradePkgs] returns two empty sets and the
    error of [ReadLine]; for a line that did not fit, that error is nil, so
    the caller gets nothing to upgrade and no error. *)
Theorem upgradePkgs_read_failure (aurList repoList : upSlice) (numberBuf : string)
    (overflow : bool) (errRead : error) :
  upSlice_Len aurList + upSlice_Len repoList ≠ 0 →
  errRead ≠ None ∨ overflow = true →
  repoNames (upgradePkgs (aurList, repoList, None) false (numberBuf, overflow, errRead)) = ∅
  ∧ aurNames (upgradePkgs (aurList, repoList, None) false (numberBuf, overflow, errRead)) = ∅
  ∧ resultErr (upgradePkgs (aurList, repoList, None) false (numberBuf, overflow, errRead))
    = errRead.
Proof.
  intros Hsome Hfail. unfold upgradePkgs.
  destruct (Z.eqb_spec (upSlice_Len aurList + upSlice_Len repoList) 0); [done | ].
  assert (Hcond : bool_decide (errRead ≠ None) || overflow = true).
  { destruct Hfail as [Hne | ->]; [ | apply orb_true_r].
    now rewrite bool_decide_eq_true_2. }
  rewrite Hcond. done.
Qed.

(** X7: with [config.NoConfirm], or when the line read has no token, every
    package of both lists is upgraded: the two sets are the names of the
    local list and the names of the foreign list, and the error is nil. *)
Theorem upgradePkgs_everything (aurList repoList : upSlice) (NoConfirm : bool)
    (numberBuf : string) :
  (∀ u, sort_Sort u ≡ₚ u) →
  NoConfirm = true ∨ Go.Fields numberBuf = [] →
  repoNames (upgradePkgs (aurList, repoList, None) NoConfirm (numberBuf, false, None))
  = namesOf repoList
  ∧ aurNames (upgradePkgs (aurList, repoList, None) NoConfirm (numberBuf, false, None))
    = namesOf aurList
  ∧ resultErr (upgradePkgs (aurList, repoList, None) NoConfirm (numberBuf, false, None))
    = None.
Proof.
  intros Hsort Hcase. unfold upgradePkgs.
  destruct (Z.eqb_spec (upSlice_Len aurList + upSlice_Len repoList) 0) as [Hzero|Hsome].
  - unfold upSlice_Len in Hzero.
    destruct aurList, repoList; simpl in Hzero; try lia. done.
  - assert (Hall : ∀ up, namesToUpgrade (sort_Sort up) [] = namesOf up).
    { intros up. rewrite namesToUpgrade_all. apply namesOf_perm, Hsort. }
    destruct NoConfirm; simpl.
    + now rewrite Hall, namesToUpgrade_all.
    + destruct Hcase as [Hno | ->]; [discriminate | ].
      change (parseTokens (upSlice_Len aurList) (upSlice_Len repoList) [] no_selection)
        with no_selection.
      change (resolveSelection (upSlice_Len aurList) (upSlice_Len repoList) no_selection)
        with (@nil Z, @nil Z).
      simpl. now rewrite Hall, namesToUpgrade_all.
Qed.

(** X8: whatever is typed, [upgradePkgs] returns only names of the lists it
    was given: local names among those of the local list, foreign names among
    those of the foreign list. *)
Theorem upgradePkgs_only_listed (listed : upSlice * upSlice * error) (NoConfirm : bool)
    (readLine : string * bool * error) :
  (∀ u, sort_Sort u ≡ₚ u) →
  repoNames (upgradePkgs listed NoConfirm readLine) ⊆ namesOf (snd (fst listed))
  ∧ aurNames (upgradePkgs listed NoConfirm readLine) ⊆ namesOf (fst (fst listed)).
Proof.
  intros Hsort. destruct listed as [[aurList repoList] e]. unfold upgradePkgs. simpl.
  assert (Hrepo : ∀ nums, namesToUpgrade (sort_Sort repoList) nums ⊆ namesOf repoList).
  { intros nums. rewrite <- (namesOf_perm _ _ (Hsort repoList)).
    apply namesToUpgrade_subseteq. }
  destruct e as [msg|]; [split; apply empty_subseteq | ].
  destruct (upSlice_Len aurList + upSlice_Len repoList =? 0);
    [split; apply empty_subseteq | ].
  destruct NoConfirm; simpl; [split; [apply Hrepo | apply namesToUpgrade_subseteq] | ].
  destruct readLine as [[numberBuf overflow] errRead].
  destruct (bool_decide (errRead ≠ None) || overflow); simpl;
    [split; apply empty_subseteq | ].
  split; [apply Hrepo | apply namesToUpgrade_subseteq].
Qed.
End UpgradePkgsFacts.

Lemma insertionSorting_perm (u : upSlice) : @sort_Sort insertionSorting u ≡ₚ u.
Proof. apply insertionSort_perm. Qed.

Lemma upgradePkgs_nothing_listed_witness :
  @upgradePkgs splitParser plainColours insertionSorting
    ([packageB], [packageA], Some "no database"%string) false ("1"%string, false, None)
  = {| repoNames := ∅; aurNames := ∅; resultErr := Some "no database"%string; shown := [] |}.
Proof.
  apply (@upgradePkgs_nothing_listed splitParser plainColours insertionSorting).
  left. discriminate.
Defined.

(** A line that did not fit: nothing is upgraded and the error is nil. *)
Lemma upgradePkgs_read_failure_witness :
  repoNames (@upgradePkgs splitParser plainColours insertionSorting
               ([packageB], [packageA], None) false ("1 2 3"%string, true, None)) = ∅
  ∧ aurNames (@upgradePkgs splitParser plainColours insertionSorting
                ([packageB], [packageA], None) false ("1 2 3"%string, true, None)) = ∅
  ∧ resultErr (@upgradePkgs splitParser plainColours insertionSorting
                 ([packageB], [packageA], None) false ("1 2 3"%string, true, None)) = None.
Proof.
  apply (@upgradePkgs_read_failure splitParser plainColours insertionSorting
           [packageB] [packageA] "1 2 3" true None).
  - unfold upSlice_Len. simpl. lia.
  - right. reflexivity.
Defined.

Lemma upgradePkgs_everything_witness :
  repoNames (scenario "  ") = namesOf [packageA]
  ∧ aurNames (scenario "  ") = namesOf [packageB]
  ∧ resultErr (scenario "  ") = None.
Proof.
  apply (@upgradePkgs_everything splitParser plainColours insertionSorting
           [packageB] [packageA] false "  " insertionSorting_perm).
  right. reflexivity.
Defined.

Lemma upgradePkgs_only_listed_witness :
  repoNames (scenario "^1 2-7 x") ⊆ namesOf [packageA]
  ∧ aurNames (scenario "^1 2-7 x") ⊆ namesOf [packageB].
Proof.
  exact (@upgradePkgs_only_listed splitParser plainColours insertionSorting
           ([packageB], [packageA], None) false ("^1 2-7 x"%string, false, None)
           insertionSorting_perm).
Defined.

(** ** The numbers that [Print] writes *)

Lemma upSlice_Print_length `{VersionParser} `{Colours} (u : upSlice) (start : Z) :
  length (upSlice_Print u start) = length u.
Proof. unfold upSlice_Print. apply length_imap. Qed.

Lemma upSlice_Print_numbers `{VersionParser} `{Colours} (u : upSlice) (start : Z) :
  lineNumber <$> upSlice_Print u start = reverse (seqZ start (upSlice_Len u)).
Proof.
  apply list_eq. intros k. unfold upSlice_Print, upSlice_Len.
  rewrite list_lookup_fmap, list_lookup_imap.
  destruct (u !! k) as [up|] eqn:Hk; simpl.
  - apply lookup_lt_Some in Hk. unfold upSlice_Len.
    symmetry. rewrite reverse_lookup by (rewrite length_seqZ; lia).
    rewrite length_seqZ. apply lookup_seqZ. lia.
  - apply lookup_ge_None in Hk. symmetry. apply lookup_ge_None.
    rewrite length_reverse, length_seqZ. lia.
Qed.

(** X9: [Print(start)] writes one line for each entry, in the order of the
    slice, and numbers them downwards: the first line has the number
    [start + len(u) - 1] and the last one the number [start]. *)
Theorem Print_counts_down `{VersionParser} `{Colours} (u : upSlice) (start : Z) :
  length (upSlice_Print u start) = length u
  ∧ lineName <$> upSlice_Print u start = Name <$> u
  ∧ lineNumber <$> upSlice_Print u start = reverse (seqZ start (upSlice_Len u)).
Proof.
  split_and!.
  - apply upSlice_Print_length.
  - apply upSlice_Print_names.
  - apply upSlice_Print_numbers.
Qed.

(** X10: the lines that [upgradePkgs] shows, the local list first and the
    foreign list below it, are numbered from the number of packages down to
    1 without a gap, so that the foreign packages are those with the numbers
    1 to [len(aurUp)], next to the prompt. *)
Theorem upgradePkgs_numbers_lines `{VersionParser} `{Colours} `{Sorting}
    (aurList repoList : upSlice) (NoConfirm : bool) (readLine : string * bool * error) :
  (∀ u, sort_Sort u ≡ₚ u) →
  upSlice_Len aurList + upSlice_Len repoList ≠ 0 →
  lineNumber <$> shown (upgradePkgs (aurList, repoList, None) NoConfirm readLine)
  = reverse (seqZ 1 (upSlice_Len aurList + upSlice_Len repoList)).
Proof.
  intros Hsort Hsome. rewrite upgradePkgs_shown by exact Hsome.
  rewrite fmap_app, !upSlice_Print_numbers.
  assert (Hlen : upSlice_Len (sort_Sort repoList) = upSlice_Len repoList).
  { unfold upSlice_Len. now rewrite (Permutation_length (Hsort repoList)). }
  rewrite Hlen, <- reverse_app. f_equal.
  rewrite (seqZ_app 1) by (unfold upSlice_Len; lia).
  now rewrite Z.add_comm.
Qed.

Lemma upgradePkgs_numbers_lines_witness :
  lineNumber <$> shown (scenario "") = [2; 1].
Proof.
  apply (@upgradePkgs_numbers_lines splitParser plainColours insertionSorting
           [packageB] [packageA] false (EmptyString, false, None) insertionSorting_perm).
  unfold upSlice_Len. simpl. lia.
Defined.

(** ** [Less] is a strict order, and [Swap] a transposition *)

Section StrictOrder.
Context `{Unicode}.

Lemma descends_asym (a b : list Z) : descends a b → ¬ descends b a.
Proof.
  intros (k1 & Ha1 & Hb1 & Ht1 & Hgt1) (k2 & Hb2 & Ha2 & Ht2 & Hgt2).
  pose proof (proj1 (take_eq_nth k1 a b ltac:(lia) ltac:(lia)) Ht1) as Hn1.
  pose proof (proj1 (take_eq_nth k2 b a ltac:(lia) ltac:(lia)) Ht2) as Hn2.
  destruct (Nat.lt_trichotomy k1 k2) as [Hlt | [-> | Hlt]].
  - rewrite (Hn2 k1 Hlt) in Hgt1. lia.
  - lia.
  - rewrite (Hn1 k2 Hlt) in Hgt2. lia.
Qed.

Lemma descends_trans (a b c : list Z) : descends a b → descends b c → descends a c.
Proof.
  intros (k1 & Ha1 & Hb1 & Ht1 & Hgt1) (k2 & Hb2 & Hc2 & Ht2 & Hgt2).
  pose proof (proj1 (take_eq_nth k1 a b ltac:(lia) ltac:(lia)) Ht1) as Hn1.
  pose proof (proj1 (take_eq_nth k2 b c ltac:(lia) ltac:(lia)) Ht2) as Hn2.
  destruct (Nat.lt_trichotomy k1 k2) as [Hlt | [-> | Hlt]].
  - exists k1. split_and!; [lia.. | | ].
    + apply take_eq_nth; [lia.. | ]. intros m Hm.
      rewrite (Hn1 m Hm). apply Hn2. lia.
    + rewrite <- (Hn2 k1 Hlt). exact Hgt1.
  - exists k2. split_and!; [lia.. | | lia].
    apply take_eq_nth; [lia.. | ]. intros m Hm.
    rewrite (Hn1 m Hm). now apply Hn2.
  - exists k2. split_and!; [lia.. | | ].
    + apply take_eq_nth; [lia.. | ]. intros m Hm.
      rewrite (Hn1 m) by lia. now apply Hn2.
    + rewrite (Hn1 k2 Hlt). exact Hgt2.
Qed.

Lemma upSlice_Less_true (u : upSlice) (i j : nat) :
  upSlice_Less u i j = Some true
  ↔ ∃ ui uj, u !! i = Some ui ∧ u !! j = Some uj
             ∧ descends (runes (Repository ui)) (runes (Repository uj)).
Proof.
  unfold upSlice_Less. split.
  - destruct (u !! i) as [ui|]; simpl; [ | discriminate].
    destruct (u !! j) as [uj|]; simpl; [ | discriminate].
    intros [= Hless]. exists ui, uj. split_and!; try done.
    now apply lessRepository_descends.
  - intros (ui & uj & -> & -> & Hd). simpl. f_equal.
    now apply lessRepository_descends.
Qed.

(** X11: [Less] is a strict order on the entries of a slice: it never holds
    of an entry and itself, never in both directions, and it is transitive,
    whatever [unicode.ToLower] does to the runes. *)
Theorem Less_strict_order (u : upSlice) (i j k : nat) :
  upSlice_Less u i i ≠ Some true
  ∧ (upSlice_Less u i j = Some true → upSlice_Less u j i = Some false)
  ∧ (upSlice_Less u i j = Some true → upSlice_Less u j k = Some true →
     upSlice_Less u i k = Some true).
Proof.
  split_and!.
  - rewrite upSlice_Less_true. intros (ui & uj & Hi & Hj & Hd).
    rewrite Hi in Hj. injection Hj as <-. now apply (descends_asym _ _ Hd).
  - intros Hij. pose proof Hij as Hij'.
    apply upSlice_Less_true in Hij as (ui & uj & Hi & Hj & Hd).
    destruct (upSlice_Less u j i) as [[|]|] eqn:Hji.
    + apply upSlice_Less_true in Hji as (uj' & ui' & Hj' & Hi' & Hd').
      rewrite Hi in Hi'. rewrite Hj in Hj'. injection Hi' as <-. injection Hj' as <-.
      now destruct (descends_asym _ _ Hd).
    + reflexivity.
    + unfold upSlice_Less in Hji. rewrite Hi, Hj in Hji. discriminate.
  - intros Hij Hjk.
    apply upSlice_Less_true in Hij as (ui & uj & Hi & Hj & Hd).
    apply upSlice_Less_true in Hjk as (uj' & uk & Hj' & Hk & Hd').
    rewrite Hj in Hj'. injection Hj' as <-.
    apply upSlice_Less_true. exists ui, uk. split_and!; try done.
    now apply (descends_trans _ (runes (Repository uj))).
Qed.
End StrictOrder.

(** Entries that are not ordered need not be alike: [core] is unordered with
    [core2] and with [core3], and these two are ordered. *)
Example Less_not_weak_order :
  lessRepository "core" "core2" = false ∧ lessRepository "core2" "core" = false
  ∧ lessRepository "core" "core3" = false ∧ lessRepository "core3" "core" = false
  ∧ lessRepository "core3" "core2" = true.
Proof. repeat split; reflexivity. Qed.

Lemma Less_strict_order_witness :
  let u := [Upgrade "a" "extra" "1-1" "1-2"; Upgrade "b" "core" "1-1" "1-2";
            Upgrade "c" "community" "1-1" "1-2"] in
  @upSlice_Less asciiUnicode u 0 2 = Some true.
Proof.
  intros u.
  destruct (@Less_strict_order asciiUnicode u 0 1 2) as (_ & _ & Htrans).
  exact (Htrans eq_refl eq_refl).
Defined.

(** X12: [Swap(i, j)] needs both indices to be in the slice; it then puts
    each of the two entries in the place of the other and leaves every other
    entry where it is, so that the slice keeps its length and its entries, and
    a second [Swap(i, j)] gives the slice back. *)
Theorem Swap_exchanges (u u' : upSlice) (i j : nat) :
  upSlice_Swap u i j = Some u' →
  length u' = length u
  ∧ u' !! i = u !! j
  ∧ u' !! j = u !! i
  ∧ (∀ k, k ≠ i → k ≠ j → u' !! k = u !! k)
  ∧ u' ≡ₚ u
  ∧ upSlice_Swap u' i j = Some u.
Proof.
  unfold upSlice_Swap.
  destruct (u !! i) as [ui|] eqn:Hi; simpl; [ | discriminate].
  destruct (u !! j) as [uj|] eqn:Hj; simpl; [ | discriminate].
  intros [= <-].
  pose proof (lookup_lt_Some _ _ _ Hi) as Hil. pose proof (lookup_lt_Some _ _ _ Hj) as Hjl.
  assert (Hlen : length (<[j:=ui]> (<[i:=uj]> u)) = length u)
    by now rewrite !length_insert.
  assert (Hati : <[j:=ui]> (<[i:=uj]> u) !! i = Some uj).
  { destruct (decide (j = i)) as [->|Hne].
    - rewrite list_lookup_insert_eq by (rewrite length_insert; lia). congruence.
    - rewrite list_lookup_insert_ne by done. now apply list_lookup_insert_eq. }
  assert (Hatj : <[j:=ui]> (<[i:=uj]> u) !! j = Some ui).
  { apply list_lookup_insert_eq. rewrite length_insert. lia. }
  assert (Hrest : ∀ k, k ≠ i → k ≠ j → <[j:=ui]> (<[i:=uj]> u) !! k = u !! k).
  { intros k Hki Hkj. now rewrite !list_lookup_insert_ne by done. }
  split_and!; try done; try congruence.
  - apply Permutation_inj. split; [exact Hlen | ].
    exists (λ k, if decide (k = i) then j else if decide (k = j) then i else k). split.
    + intros x y Hxy. repeat case_decide; congruence.
    + intros k. repeat case_decide; subst; try congruence.
      now apply Hrest.
  - rewrite Hati, Hatj. simpl. f_equal. apply list_eq. intros k.
    destruct (decide (k = j)) as [->|Hkj].
    + rewrite list_lookup_insert_eq by (rewrite !length_insert; lia). congruence.
    + rewrite list_lookup_insert_ne by done.
      destruct (decide (k = i)) as [->|Hki].
      * rewrite list_lookup_insert_eq by (rewrite !length_insert; lia). congruence.
      * rewrite list_lookup_insert_ne by done. now apply Hrest.
Qed.

Lemma Swap_exchanges_witness :
  upSlice_Swap [packageA; packageB] 0 1 = Some [packageB; packageA]
  ∧ [packageB; packageA] ≡ₚ [packageA; packageB].
Proof.
  assert (Hswap : upSlice_Swap [packageA; packageB] 0 1 = Some [packageB; packageA])
    by reflexivity.
  split; [exact Hswap | ].
  exact (proj1 (proj2 (proj2 (proj2 (proj2 (Swap_exchanges _ _ _ _ Hswap)))))).
Defined.

(** ** [upRepo] *)

Section LocalFetchFacts.
Context `{Alpm}.

Lemma upRepo_foldl (dbList : DbList) (local : list Package) (st : upSlice * list repoWarning) :
  foldl (upRepo_step dbList) st local
  = (fst st ++ omap (repoUpgradeOf dbList) local,
     snd st ++ omap (repoWarningOf dbList) local).
Proof.
  revert st. induction local as [|pkg local IH]; intros [slice ws]; simpl.
  - now rewrite !app_nil_r.
  - rewrite IH. unfold upRepo_step, repoUpgradeOf, repoWarningOf. simpl.
    destruct (NewVersion pkg dbList) as [newPkg|]; simpl; [ | reflexivity].
    destruct (pkgShouldIgnore pkg); simpl; now rewrite <- app_assoc.
Qed.

(** X13: when the databases are there, [upRepo] returns a nil error and, in
    the order of the installed packages, one record for each package that has
    a new version and is not ignored: its name, the name of the database that
    has the new version, the installed version and the new one.  It prints
    one warning for each package that has a new version and is ignored. *)
Theorem upRepo_lists_new_versions (dbList : DbList) (local : list Package) :
  upRepo (inl dbList) local
  = (omap (repoUpgradeOf dbList) local, None, omap (repoWarningOf dbList) local).
Proof. unfold upRepo. now rewrite upRepo_foldl. Qed.

(** X14: [upRepo] lists or warns about each package that has a new version,
    never both and never twice: the records and the warnings together are as
    many as the packages with a new version.  When the databases cannot be
    had, it returns that error with no record and no warning. *)
Theorem upRepo_accounts_for_each (synced : DbList + string) (local : list Package) :
  match synced with
  | inl dbList =>
      (length (fst (fst (upRepo synced local))) + length (snd (upRepo synced local)))%nat
      = length (filter (λ pkg, is_Some (NewVersion pkg dbList)) local)
      ∧ snd (fst (upRepo synced local)) = None
  | inr e => upRepo synced local = ([], Some e, [])
  end.
Proof.
  destruct synced as [dbList|e]; [ | reflexivity].
  unfold upRepo. rewrite upRepo_foldl. simpl. split; [ | reflexivity].
  induction local as [|pkg local IH]; simpl; [reflexivity | ].
  unfold repoUpgradeOf at 1, repoWarningOf at 1.
  destruct (NewVersion pkg dbList) as [newPkg|] eqn:Hnew; simpl.
  - rewrite filter_cons_True by (rewrite Hnew; eauto).
    destruct (pkgShouldIgnore pkg); simpl;
      repeat match goal with
        | |- context [list_omap _ _ ?f ?l] => change (list_omap _ _ f l) with (omap f l)
        end; lia.
  - rewrite filter_cons_False by (rewrite Hnew; intros [? ?]; discriminate).
    exact IH.
Qed.
End LocalFetchFacts.

(** ** The goroutine of [upAUR] that compares with the AUR *)

Section ForeignFetchFacts.
Context `{Alpm} `{VersionParser} `{Colours}.

Lemma elem_of_upAUR_check (TimeUpdate : bool) (Aur : gmap string rpcPkg)
    (remote : list Package) (eff : aurEffect) :
  eff ∈ upAUR_check TimeUpdate Aur remote
  ↔ eff = AurDone
    ∨ ∃ pkg, pkg ∈ remote ∧ eff ∈ upAUR_check_entry TimeUpdate Aur pkg.
Proof.
  unfold upAUR_check. rewrite elem_of_app, list_elem_of_singleton.
  rewrite list_elem_of_In, in_flat_map. split.
  - intros [(pkg & Hin & Heff) | ->]; [right | now left].
    exists pkg. now rewrite !list_elem_of_In.
  - intros [-> | (pkg & Hin & Heff)]; [now right | left].
    exists pkg. now rewrite <- !list_elem_of_In.
Qed.

Lemma elem_of_upAUR_check_send (TimeUpdate : bool) (Aur : gmap string rpcPkg)
    (remote : list Package) (u : upgrade) :
  AurSend u ∈ upAUR_check TimeUpdate Aur remote
  ↔ ∃ pkg aurPkg,
      pkg ∈ remote
      ∧ Aur !! pkgName pkg = Some aurPkg
      ∧ outdated TimeUpdate pkg aurPkg = true
      ∧ pkgShouldIgnore pkg = false
      ∧ u = Upgrade (rpcName aurPkg) "aur" (pkgVersion pkg) (rpcVersion aurPkg).
Proof.
  rewrite elem_of_upAUR_check. split.
  - intros [Hdone | (pkg & Hin & Heff)]; [discriminate | ].
    unfold upAUR_check_entry in Heff.
    destruct (Aur !! pkgName pkg) as [aurPkg|] eqn:Hentry; [ | inversion Heff].
    destruct (outdated TimeUpdate pkg aurPkg) eqn:Hout; [ | inversion Heff].
    destruct (pkgShouldIgnore pkg) eqn:Hignore;
      apply list_elem_of_singleton in Heff; [discriminate | ].
    injection Heff as ->. now exists pkg, aurPkg.
  - intros (pkg & aurPkg & Hin & Hentry & Hout & Hignore & ->). right.
    exists pkg. split; [exact Hin | ].
    unfold upAUR_check_entry. rewrite Hentry, Hout, Hignore. now left.
Qed.


(** X15: the goroutine sends a record exactly for the installed packages
    that have an entry in [dt.Aur], pass the test of being outdated and are
    not ignored; the record has the name of the AUR entry, the repository
    [aur], the installed version and the version of the AUR.  A package with
    no entry in [dt.Aur] gives no record. *)
Theorem upAUR_check_sends (TimeUpdate : bool) (Aur : gmap string rpcPkg)
    (remote : list Package) (u : upgrade) :
  AurSend u ∈ upAUR_check TimeUpdate Aur remote
  ↔ ∃ pkg aurPkg,
      pkg ∈ remote
      ∧ Aur !! pkgName pkg = Some aurPkg
      ∧ outdated TimeUpdate pkg aurPkg = true
      ∧ pkgShouldIgnore pkg = false
      ∧ u = Upgrade (rpcName aurPkg) "aur" (pkgVersion pkg) (rpcVersion aurPkg).
Proof. apply elem_of_upAUR_check_send. Qed.

(** X16: when [config.TimeUpdate] is off, the version of the AUR in every
    record sent is newer than the installed one, as [alpm.VerCmp] tells. *)
Theorem upAUR_check_newer (Aur : gmap string rpcPkg) (remote : list Package) (u : upgrade) :
  AurSend u ∈ upAUR_check false Aur remote →
  VerCmp (LocalVersion u) (RemoteVersion u) < 0 ∧ Repository u = "aur"%string.
Proof.
  intros Hsend.
  apply elem_of_upAUR_check_send in Hsend as (pkg & aurPkg & _ & _ & Hout & _ & ->).
  unfold outdated in Hout. simpl in *. split; [ | reflexivity].
  now apply Z.ltb_lt.
Qed.
End ForeignFetchFacts.

Lemma upAUR_check_newer_witness :
  let pkg := {| pkgName := "yay"; pkgVersion := "1-1"; pkgShouldIgnore := false |} in
  let Aur : gmap string rpcPkg :=
    {[ "yay"%string := {| rpcName := "yay"; rpcVersion := "10-1"; rpcLastModified := 0 |} ]} in
  let u := Upgrade "yay" "aur" "1-1" "10-1" in
  AurSend u ∈ @upAUR_check lengthAlpm splitParser plainColours false Aur [pkg]
  ∧ @VerCmp lengthAlpm (LocalVersion u) (RemoteVersion u) < 0
  ∧ Repository u = "aur"%string.
Proof.
  intros pkg Aur u.
  assert (Hsend : AurSend u ∈ @upAUR_check lengthAlpm splitParser plainColours
                                 false Aur [pkg]).
  { apply (@elem_of_upAUR_check_send lengthAlpm splitParser plainColours).
    exists pkg, {| rpcName := "yay"; rpcVersion := "10-1"; rpcLastModified := 0 |}.
    split_and!; try reflexivity. now left. }
  split; [exact Hsend | ].
  exact (@upAUR_check_newer lengthAlpm splitParser plainColours Aur [pkg] u Hsend).
Defined.

(** ** [upDevel]: what is sent and what is removed *)

(** X17: [upDevel] sends a record exactly for the entries of [savedInfo]
    that need an update and whose name an installed package has that is not
    ignored; the record has that name, the repository [devel], the installed
    version of the package and the marker [latest-commit]. *)
Theorem upDevel_sends (remote : list Package) (savedInfo : list (string * shaInfos))
    (u : upgrade) :
  SendUpgrade u ∈ upDevel remote savedInfo
  ↔ ∃ vcsName e pkg,
      (vcsName, e) ∈ savedInfo
      ∧ needsUpdate e = true
      ∧ findRemote remote vcsName = Some pkg
      ∧ pkg ∈ remote
      ∧ pkgShouldIgnore pkg = false
      ∧ u = Upgrade vcsName "devel" (pkgVersion pkg) "latest-commit".
Proof.
  rewrite elem_of_upDevel. split.
  - intros [Hdone | (vcsName & e & Hin & Heff)]; [discriminate | ].
    unfold upDevel_entry in Heff.
    destruct (needsUpdate e) eqn:Hneeds; [ | inversion Heff].
    destruct (findRemote remote vcsName) as [pkg|] eqn:Hfind.
    + destruct (findRemote_Some _ _ _ Hfind) as (Hpkg & Hname).
      destruct (pkgShouldIgnore pkg) eqn:Hignore;
        apply list_elem_of_singleton in Heff; [discriminate | ].
      injection Heff as ->. exists vcsName, e, pkg. now rewrite Hname.
    + apply list_elem_of_singleton in Heff. discriminate.
  - intros (vcsName & e & pkg & Hin & Hneeds & Hfind & Hpkg & Hignore & ->). right.
    exists vcsName, e. split; [exact Hin | ].
    unfold upDevel_entry. rewrite Hneeds, Hfind, Hignore.
    destruct (findRemote_Some _ _ _ Hfind) as (_ & ->). now left.
Qed.

(** X18: [upDevel] asks for the removal of an entry only when the entry needs
    an update and no installed package has its name, and then for that entry
    alone; an entry whose package is installed is never removed. *)
Theorem upDevel_removes (remote : list Package) (savedInfo : list (string * shaInfos))
    (names : list string) :
  RemoveVCSPackage names ∈ upDevel remote savedInfo
  ↔ ∃ vcsName e,
      names = [vcsName]
      ∧ (vcsName, e) ∈ savedInfo
      ∧ needsUpdate e = true
      ∧ ∀ r, r ∈ remote → pkgName r ≠ vcsName.
Proof.
  rewrite elem_of_upDevel. split.
  - intros [Hdone | (vcsName & e & Hin & Heff)]; [discriminate | ].
    unfold upDevel_entry in Heff.
    destruct (needsUpdate e) eqn:Hneeds; [ | inversion Heff].
    destruct (findRemote remote vcsName) as [pkg|] eqn:Hfind.
    + destruct (pkgShouldIgnore pkg); apply list_elem_of_singleton in Heff; discriminate.
    + apply list_elem_of_singleton in Heff. injection Heff as ->.
      exists vcsName, e. split_and!; try done. now apply findRemote_None.
  - intros (vcsName & e & -> & Hin & Hneeds & Hnone). right.
    exists vcsName, e. split; [exact Hin | ].
    unfold upDevel_entry. rewrite Hneeds.
    apply findRemote_None in Hnone. rewrite Hnone. now left.
Qed.

(** X19: when several installed packages have the name of an entry, the last
    of them in the list is the one that [upDevel] reads the version and the
    ignore flag from. *)
Theorem findRemote_last (before after : list Package) (r : Package) :
  (∀ r', r' ∈ after → pkgName r' ≠ pkgName r) →
  findRemote (before ++ r :: after) (pkgName r) = Some r.
Proof.
  intros Hafter. unfold findRemote. rewrite foldl_app. simpl.
  rewrite String.eqb_refl.
  induction after as [|r' after IH]; simpl; [reflexivity | ].
  destruct (String.eqb_spec (pkgName r') (pkgName r)) as [Heq|Hne].
  - destruct (Hafter r'); [left | exact Heq].
  - apply IH. intros r'' Hin. apply Hafter. now right.
Qed.

Lemma findRemote_last_witness :
  let old := {| pkgName := "yay-git"; pkgVersion := "r1-1"; pkgShouldIgnore := true |} in
  let new := {| pkgName := "yay-git"; pkgVersion := "r2-1"; pkgShouldIgnore := false |} in
  let other := {| pkgName := "vim-git"; pkgVersion := "r7-1"; pkgShouldIgnore := false |} in
  findRemote [old; new; other] "yay-git" = Some new.
Proof.
  intros old new other.
  apply (findRemote_last [old] [other] new).
  intros r' Hin. apply list_elem_of_singleton in Hin as ->. discriminate.
Defined.

(** ** [upAUR]: waiting for the goroutines *)

(** X20: [upAUR] waits for one [done], and for two when [config.Devel] is
    set: while fewer have arrived it has not returned, and at the [done] that
    completes the count it returns, with a nil error, every record received
    before it, in the order of arrival; what comes later is not read. *)
Theorem upAUR_waits_for_all (Devel : bool) (pre post : list aurEvent) :
  dones pre = (if Devel then 1 else 0) →
  upAUR Devel (pre ++ OnDone :: post) = Some (received pre, None)
  ∧ upAUR Devel pre = None.
Proof.
  intros Hdones. split; [now apply upAUR_returns_at | ].
  unfold upAUR.
  destruct Devel; simpl; now rewrite upAUR_loop_waits by (rewrite Hdones; lia).
Qed.

Lemma upAUR_waits_for_all_witness :
  upAUR true [OnPackageC packageA; OnDone; OnPackageC packageB; OnDone; OnPackageC packageA]
  = Some ([packageA; packageB], None)
  ∧ upAUR true [OnPackageC packageA; OnDone; OnPackageC packageB] = None.
Proof.
  exact (upAUR_waits_for_all true [OnPackageC packageA; OnDone; OnPackageC packageB]
           [OnPackageC packageA] eq_refl).
Defined.

(** ** [upAUR]: the two goroutines together *)

Lemma merged_nil_inv {A : Type} (l1 l2 : list A) : merged l1 l2 [] → l1 = [] ∧ l2 = [].
Proof. intros Hm. now inversion Hm. Qed.

Lemma merged_dones (l1 l2 l : list aurEvent) :
  merged l1 l2 l → dones l = dones l1 + dones l2.
Proof.
  induction 1 as [|x l1 l2 l _ IH|x l1 l2 l _ IH]; simpl; [reflexivity | | ];
    destruct x; lia.
Qed.

Lemma merged_received (l1 l2 l : list aurEvent) :
  merged l1 l2 l → received l ≡ₚ received l1 ++ received l2.
Proof.
  induction 1 as [|x l1 l2 l _ IH|x l1 l2 l _ IH]; [reflexivity | | ];
    destruct x as [pkg| ]; unfold received in *; simpl;
    repeat match goal with
      | |- context [list_omap _ _ ?f ?l] => change (list_omap _ _ f l) with (omap f l)
      end; try exact IH.
  - now rewrite IH.
  - rewrite IH. apply Permutation_middle.
Qed.

Lemma last_cons_Some {A : Type} (x d : A) (l : list A) :
  last (x :: l) = Some d → last l = Some d ∨ l = [].
Proof. destruct l; [now right | now left]. Qed.

(** When both streams end with the same value, so does what arrives. *)
Lemma merged_last {A : Type} (d : A) (l1 l2 l : list A) :
  merged l1 l2 l →
  last l1 = Some d ∨ l1 = [] →
  last l2 = Some d ∨ l2 = [] →
  l ≠ [] →
  last l = Some d.
Proof.
  induction 1 as [|x l1 l2 l Hm IH|x l1 l2 l Hm IH]; intros H1 H2 Hne; [done | | ].
  - destruct H1 as [H1 | H1]; [ | discriminate].
    destruct l as [|y l].
    + apply merged_nil_inv in Hm as (-> & _). exact H1.
    + change (last (x :: y :: l)) with (last (y :: l)).
      apply IH; [now apply (last_cons_Some x) | exact H2 | discriminate].
  - destruct H2 as [H2 | H2]; [ | discriminate].
    destruct l as [|y l].
    + apply merged_nil_inv in Hm as (_ & ->). exact H2.
    + change (last (x :: y :: l)) with (last (y :: l)).
      apply IH; [exact H1 | now apply (last_cons_Some x) | discriminate].
Qed.

Lemma develChannel_upDevel (remote : list Package) (savedInfo : list (string * shaInfos)) :
  ∃ sent, develChannel (upDevel remote savedInfo) = sent ++ [OnDone] ∧ dones sent = 0.
Proof.
  unfold upDevel, develChannel. rewrite omap_app.
  eexists. split; [reflexivity | ].
  induction savedInfo as [|[vcsName e] savedInfo IH]; [reflexivity | ].
  cbn [flat_map]. rewrite omap_app, dones_app, IH.
  unfold upDevel_entry. simpl.
  destruct (needsUpdate e); [ | reflexivity].
  destruct (findRemote remote vcsName) as [pkg|]; [ | reflexivity].
  now destruct (pkgShouldIgnore pkg).
Qed.

Lemma checkChannel_upAUR_check `{Alpm} `{VersionParser} `{Colours} (TimeUpdate : bool)
    (Aur : gmap string rpcPkg) (remote : list Package) :
  ∃ sent, checkChannel (upAUR_check TimeUpdate Aur remote) = sent ++ [OnDone]
          ∧ dones sent = 0.
Proof.
  unfold upAUR_check, checkChannel. rewrite omap_app.
  eexists. split; [reflexivity | ].
  induction remote as [|pkg remote IH]; [reflexivity | ].
  cbn [flat_map]. rewrite omap_app, dones_app, IH.
  unfold upAUR_check_entry.
  destruct (Aur !! pkgName pkg) as [aurPkg|]; [ | reflexivity].
  destruct (outdated TimeUpdate pkg aurPkg); [ | reflexivity].
  now destruct (pkgShouldIgnore pkg).
Qed.

(** X21: with [config.Devel] off, [upAUR] returns the records of the
    comparing goroutine in the order they were sent.  With [config.Devel] on,
    in whatever order the sends of [upDevel] and of the comparing goroutine
    arrive, [upAUR] returns after both have finished, with a nil error and
    with every record that either of them sent: none is lost and none is
    dropped for its name. *)
Theorem upAUR_gathers_both `{Alpm} `{VersionParser} `{Colours} (TimeUpdate : bool)
    (Aur : gmap string rpcPkg) (remote : list Package)
    (savedInfo : list (string * shaInfos)) (events : list aurEvent) :
  merged (develChannel (upDevel remote savedInfo))
         (checkChannel (upAUR_check TimeUpdate Aur remote)) events →
  upAUR true events = Some (received events, None)
  ∧ received events
    ≡ₚ received (develChannel (upDevel remote savedInfo))
       ++ received (checkChannel (upAUR_check TimeUpdate Aur remote))
  ∧ upAUR false (checkChannel (upAUR_check TimeUpdate Aur remote))
    = Some (received (checkChannel (upAUR_check TimeUpdate Aur remote)), None).
Proof.
  intros Hm.
  destruct (develChannel_upDevel remote savedInfo) as (sentD & HD & HdD).
  destruct (checkChannel_upAUR_check TimeUpdate Aur remote) as (sentC & HC & HdC).
  split_and!.
  - assert (Hlast : last events = Some OnDone).
    { apply (merged_last OnDone _ _ _ Hm).
      - left. rewrite HD. apply last_snoc.
      - left. rewrite HC. apply last_snoc.
      - intros ->. apply merged_nil_inv in Hm as (Hnil & _).
        rewrite HD in Hnil. now destruct sentD. }
    apply last_Some in Hlast as (pre & ->).
    pose proof (merged_dones _ _ _ Hm) as Hcount.
    rewrite HD, HC, !dones_app in Hcount. simpl in Hcount.
    rewrite (upAUR_returns_at true pre []) by (simpl; lia).
    rewrite received_app. simpl. now rewrite app_nil_r.
  - now apply merged_received.
  - rewrite HC.
    rewrite (upAUR_returns_at false sentC []) by exact HdC.
    rewrite received_app. simpl. now rewrite app_nil_r.
Qed.

(** An installed [yay] that the AUR has a longer version of, and an installed
    [yay-git] whose entry needs an update: the record of [upDevel] arrives
    between the record and the [done] of the comparing goroutine. *)
Lemma upAUR_gathers_both_witness :
  let yay := {| pkgName := "yay"; pkgVersion := "1-1"; pkgShouldIgnore := false |} in
  let git := {| pkgName := "yay-git"; pkgVersion := "r1-1"; pkgShouldIgnore := false |} in
  let Aur : gmap string rpcPkg :=
    {[ "yay"%string := {| rpcName := "yay"; rpcVersion := "10-1"; rpcLastModified := 0 |} ]} in
  let savedInfo := [("yay-git"%string, {| needsUpdate := true |})] in
  upAUR true [OnPackageC (Upgrade "yay" "aur" "1-1" "10-1");
              OnPackageC (Upgrade "yay-git" "devel" "r1-1" "latest-commit");
              OnDone; OnDone]
  = Some ([Upgrade "yay" "aur" "1-1" "10-1";
           Upgrade "yay-git" "devel" "r1-1" "latest-commit"], None).
Proof.
  intros yay git Aur savedInfo.
  refine (proj1 (@upAUR_gathers_both lengthAlpm splitParser plainColours false Aur
                   [yay; git] savedInfo _ _)).
  apply merged_right, merged_left, merged_left, merged_right, merged_nil.
Defined.

(** ** [upList]: the loop can always be left, after eight moves *)

(** X22: the loop of [upList] cannot get stuck: from every state that a run
    reaches, the goroutines and the loop can go on so that [upList] returns,
    and it then returns the two fetched lists and a nil error. *)
Theorem upList_never_stuck (repoFetch aurFetch : upSlice * error) (ms : list move)
    (s : aggregator) :
  upList_run repoFetch aurFetch ms upList_start = Some s →
  ∃ ms', upList repoFetch aurFetch None (ms ++ ms')
         = Some (fst aurFetch, fst repoFetch, None).
Proof. apply upList_can_return. Qed.

Lemma upList_never_stuck_witness :
  ∃ ms', upList ([packageA], None) ([packageB], None) None
                ([FetchReturns Aur; FetchReturns Repo; RecvErr Aur] ++ ms')
         = Some ([packageB], [packageA], None).
Proof.
  exact (upList_never_stuck ([packageA], None) ([packageB], None)
           [FetchReturns Aur; FetchReturns Repo; RecvErr Aur] _ eq_refl).
Defined.

Section AggregatorWork.
Variable repoFetch aurFetch : upSlice * error.

Lemma upList_step_work (m : move) (s s' : aggregator) :
  upList_step repoFetch aurFetch m s = Some s' →
  progress_moves [m] + moves_left (repoG s') + moves_left (aurG s')
  = moves_left (repoG s) + moves_left (aurG s).
Proof.
  destruct s as [rg ag ru au er c lg ll]. unfold upList_step; simpl.
  destruct ll; [discriminate | ].
  destruct m as [g|g|g|g| ]; try destruct g; simpl;
    destruct rg, ag; simpl; try discriminate; intros [= <-]; reflexivity.
Qed.

Lemma upList_run_work (ms : list move) (s s' : aggregator) :
  upList_run repoFetch aurFetch ms s = Some s' →
  progress_moves ms + moves_left (repoG s') + moves_left (aurG s')
  = moves_left (repoG s) + moves_left (aurG s).
Proof.
  revert s. induction ms as [|m ms IH]; intros s; simpl.
  - intros [= <-]. lia.
  - destruct (upList_step repoFetch aurFetch m s) as [s1|] eqn:Hstep; simpl;
      [ | discriminate].
    intros Hrun. apply IH in Hrun. apply upList_step_work in Hstep.
    simpl in Hstep. destruct m; lia.
Qed.

(** X23: besides the turns of [default], a run of the loop of [upList] has
    eight moves at most, and a run that leaves the loop has exactly eight:
    the two fetches returning and the four values received, each sender
    reaching its second send in between.  A turn of [default] that does not
    leave the loop changes nothing: the loop polls. *)
Theorem upList_eight_moves (ms : list move) (s : aggregator) :
  upList_run repoFetch aurFetch ms upList_start = Some s →
  progress_moves ms ≤ 8
  ∧ (left_loop s = true → progress_moves ms = 8)
  ∧ (∀ s', upList_step repoFetch aurFetch Default s = Some s' →
           left_loop s' = false → s' = s).
Proof.
  intros Hrun. pose proof (upList_run_work ms _ s Hrun) as Hwork. simpl in Hwork.
  split_and!.
  - destruct (repoG s), (aurG s); simpl in Hwork; lia.
  - intros Hleft.
    pose proof (steady_run repoFetch aurFetch ms _ s (steady_start repoFetch aurFetch) Hrun)
      as Hs.
    destruct (steady_left repoFetch aurFetch s Hs Hleft) as (Hrg & Hag).
    rewrite Hrg, Hag in Hwork. simpl in Hwork. lia.
  - intros s'. unfold upList_step.
    destruct (left_loop s) eqn:Hleft; [discriminate | ].
    destruct (blocked_in_send (repoG s) || blocked_in_send (aurG s)); [discriminate | ].
    intros [= <-]. unfold take_default. simpl. intros Hstay.
    destruct s. simpl in *. now rewrite Hstay, Hleft.
Qed.
End AggregatorWork.

Lemma upList_eight_moves_witness :
  progress_moves (Default :: Default :: repo_first) ≤ 8.
Proof.
  destruct (upList_run ([packageA], None) ([packageB], None)
              (Default :: Default :: repo_first) upList_start) as [s|] eqn:Hrun;
    [ | vm_compute in Hrun; discriminate].
  exact (proj1 (upList_eight_moves ([packageA], None) ([packageB], None)
                  (Default :: Default :: repo_first) s Hrun)).
Defined.

(** ** [getVersionDiff]: neither version parses *)

(** X24: when neither version parses, both displays are the marker
    [Invalid Version], in red. *)
Theorem both_invalid `{VersionParser} `{Colours} (oldVersion newversion : string) :
  NewCompleteVersion oldVersion = None →
  NewCompleteVersion newversion = None →
  getVersionDiff oldVersion newversion = (red invalidVersion, red invalidVersion).
Proof.
  intros Hold Hnew. rewrite getVersionDiff_failed by now left.
  now rewrite Hold, Hnew.
Qed.

Lemma both_invalid_witness :
  @getVersionDiff splitParser taggedColours "a:b:c" "-1"
  = ("<red>Invalid Version<reset>"%string, "<red>Invalid Version<reset>"%string).
Proof.
  exact (@both_invalid splitParser taggedColours "a:b:c" "-1" eq_refl eq_refl).
Defined.

(** ** A line of one number *)




